(** * Simtic: the tic-tac-toe search engine of [main.c]

    A shallow embedding of the search core of [main.c] (position, move
    generation, [checkmate], [eval], [minimax], [move_pick]) together with
    the properties of the engine that the design document states.

    Conventions of the embedding:
    - the anonymous [enum { WHITE, BLACK, EMPTY }] is the inductive [piece];
    - [int sq[9]] is a [list piece] read with [!!!] and written with
      [<[ i := x ]>]; a well-formed position has exactly nine squares;
    - scores, depths and moves are C [int]s, modelled in [Z] (all scores stay
      within [-100, 100], so no wrap-around can occur); loop counters that
      only run upwards from 0 are [nat];
    - [nodecount] is an [unsigned int]: its increment wraps modulo [2^32];
    - the position is mutated in place through a pointer, so the search is
      written in a state monad over the position and the node counter;
    - the C recursion of [minimax] is bounded by a [fuel] argument (the
      number of stack frames available); running out of it is a separate
      outcome, as is a failed [assert];
    - [printf] and [display_moves] only print and are left out. *)

From stdpp Require Import base decidable option numbers list countable gmap strings.
From Stdlib Require Import ZArith Lia Sorted Ascii.

Local Open Scope Z_scope.

(** * The program *)

(** ** Data model *)

(** [enum { WHITE, BLACK, EMPTY }] *)
Inductive piece : Set := WHITE | BLACK | EMPTY.

#[global] Instance piece_eq_dec : EqDecision piece.
Proof. solve_decision. Defined.

#[global] Instance piece_inhabited : Inhabited piece := populate EMPTY.

(** [struct board_pos] *)
Record board_pos : Set := mk_pos {
  sq : list piece;   (* int sq[SQUARES_MAX] *)
  color : piece      (* the color that will make the next move *)
}.

(** [struct move_list] *)
Record move_list : Set := mk_mlist {
  move : list Z;     (* int move[MOVES_MAX] *)
  moves : nat        (* number of entries of [move] in use *)
}.

Definition MOVES_MAX : nat := 9.
Definition SQUARES_MAX : nat := 9.
Definition MOVE_NONE : Z := -1.
Definition INF : Z := 100.

Definition winning_squares : list (list nat) :=
  [ [0;1;2]; [3;4;5]; [6;7;8];     (* rows *)
    [0;3;6]; [1;4;7]; [2;5;8];     (* columns *)
    [0;4;8]; [2;4;6] ]%nat.        (* diagonals *)

(** [#define MAX(X,Y) (X > Y ? X : Y)] and [#define MIN(X,Y) (X > Y ? Y : X)] *)
Definition MAX (X Y : Z) : Z := if X >? Y then X else Y.
Definition MIN (X Y : Z) : Z := if X >? Y then Y else X.

(** [(c == WHITE) ? BLACK : WHITE], written out at five places of [main.c]. *)
Definition flip_color (c : piece) : piece :=
  if decide (c = WHITE) then BLACK else WHITE.

(** A position as the data model describes it: nine squares, and a side to
    move that is one of the two players. *)
Definition wf_pos (p : board_pos) : Prop :=
  length (sq p) = SQUARES_MAX ∧ color p ≠ EMPTY.

Definition wf_posb (p : board_pos) : bool :=
  (length (sq p) =? SQUARES_MAX)%nat && bool_decide (color p ≠ EMPTY).

(** The position [newgame] starts from. *)
Definition start_pos : board_pos :=
  mk_pos (replicate SQUARES_MAX EMPTY) WHITE.

(** ** Move handling *)

(** [move_generate]: the first loop resets all nine slots of [mp], the second
    appends every empty square. *)
Definition move_generate_reset (mp : move_list) : move_list :=
  mk_mlist
    (fold_left (fun mv i => <[ i := MOVE_NONE ]> mv) (seq 0 MOVES_MAX) (move mp))
    0.

Definition move_generate_step (p : board_pos) (mp : move_list) (i : nat)
  : move_list :=
  if decide (sq p !!! i = EMPTY)
  then mk_mlist (<[ moves mp := Z.of_nat i ]> (move mp)) (S (moves mp))
  else mp.

Definition move_generate (p : board_pos) (mp : move_list) : move_list :=
  fold_left (move_generate_step p) (seq 0 SQUARES_MAX) (move_generate_reset mp).

(** An uninitialised [struct move_list] local: nine slots of unspecified
    content ([move_generate] overwrites all of them). *)
Definition mlist_uninit : move_list := mk_mlist (replicate MOVES_MAX 0) 0.

(** The entries of a move list that are in use: [move[0 .. moves-1]]. *)
Definition generated (mp : move_list) : list Z := take (moves mp) (move mp).

(** [move_do] *)
Definition move_do (p : board_pos) (m : Z) : board_pos :=
  mk_pos (<[ Z.to_nat m := color p ]> (sq p)) (flip_color (color p)).

(** [move_undo] *)
Definition move_undo (p : board_pos) (m : Z) : board_pos :=
  mk_pos (<[ Z.to_nat m := EMPTY ]> (sq p)) (flip_color (color p)).

(** [board_empty]: true as soon as one square is empty. *)
Fixpoint board_empty_from (sqs : list piece) (idx : list nat) : bool :=
  match idx with
  | [] => false
  | i :: rest =>
      if decide (sqs !!! i = EMPTY) then true else board_empty_from sqs rest
  end.

Definition board_empty (p : board_pos) : bool :=
  board_empty_from (sq p) (seq 0 SQUARES_MAX).

(** ** Evaluation *)

(** Inner loop of [checkmate]: count towards three, [break] at the first
    square that is not [player_color]. *)
Fixpoint checkmate_line (sqs : list piece) (player_color : piece)
    (line : list nat) (ours : Z) : Z :=
  match line with
  | [] => ours
  | j :: rest =>
      if decide (sqs !!! j = player_color)
      then checkmate_line sqs player_color rest (ours + 1)
      else ours
  end.

(** Outer loop of [checkmate]: return 1 at the first complete line. *)
Fixpoint checkmate_lines (sqs : list piece) (player_color : piece)
    (lines : list (list nat)) : Z :=
  match lines with
  | [] => 0
  | line :: rest =>
      if checkmate_line sqs player_color line 0 =? 3 then 1
      else checkmate_lines sqs player_color rest
  end.

Definition checkmate (p : board_pos) : Z :=
  checkmate_lines (sq p) (flip_color (color p)) winning_squares.

(** First inner loop of [eval]: how many squares of the line are ours. *)
Definition eval_ours (p : board_pos) (line : list nat) : Z :=
  fold_left (fun ours j => if decide (sq p !!! j = color p) then ours + 1 else ours)
            line 0.

(** Second inner loop of [eval]: a point for every empty square, one off for
    every enemy square. *)
Definition eval_points (p : board_pos) (enemy_color : piece) (line : list nat)
    (points : Z) : Z :=
  fold_left
    (fun pts j =>
       let pts := if decide (sq p !!! j = EMPTY) then pts + 1 else pts in
       if decide (sq p !!! j = enemy_color) then pts - 1 else pts)
    line points.

Definition eval_line (p : board_pos) (enemy_color : piece) (points : Z)
    (line : list nat) : Z :=
  if eval_ours p line >? 1 then eval_points p enemy_color line points
  else points.

Definition eval (p : board_pos) : Z :=
  fold_left (eval_line p (flip_color (color p))) winning_squares 0.

(** ** The state monad of the search *)

Record state : Set := mk_state {
  pos : board_pos;     (* the position behind [struct board_pos *pos] *)
  nodecount : Z        (* static unsigned int nodecount *)
}.

Inductive outcome (A : Type) : Type :=
| Ok (a : A) (s : state)    (* returned [a], leaving the state [s] *)
| AssertFail                (* an [assert] failed *)
| OutOfFuel.                (* recursion deeper than the fuel allows *)
Arguments Ok {A} a s.
Arguments AssertFail {A}.
Arguments OutOfFuel {A}.

Definition M (A : Type) : Type := state → outcome A.

#[global] Instance M_ret : MRet M := fun A (a : A) s => Ok a s.

#[global] Instance M_bind : MBind M := fun A B (k : A → M B) (c : M A) s =>
  match c s with
  | Ok a s' => k a s'
  | AssertFail => AssertFail
  | OutOfFuel => OutOfFuel
  end.

Definition get_pos : M board_pos := fun s => Ok (pos s) s.
Definition set_pos (p : board_pos) : M unit :=
  fun s => Ok tt (mk_state p (nodecount s)).
Definition set_nodecount (n : Z) : M unit :=
  fun s => Ok tt (mk_state (pos s) n).
(** [nodecount++] on an [unsigned int] *)
Definition incr_nodecount : M unit :=
  fun s => Ok tt (mk_state (pos s) ((nodecount s + 1) mod 2 ^ 32)).
Definition assert (b : bool) : M unit :=
  fun s => if b then Ok tt s else AssertFail.
Definition out_of_fuel {A} : M A := fun _ => OutOfFuel.

(** [move_do(pos, m)] and [move_undo(pos, m)] on the shared position. *)
Definition do_move (m : Z) : M unit := p ← get_pos; set_pos (move_do p m).
Definition undo_move (m : Z) : M unit := p ← get_pos; set_pos (move_undo p m).

(** [for (i = 0; i < n; i++) acc = body i acc], over the indices [idx]. *)
Fixpoint for_loop {S : Type} (idx : list nat) (body : nat → S → M S) (acc : S)
  : M S :=
  match idx with
  | [] => mret acc
  | i :: rest => acc' ← body i acc; for_loop rest body acc'
  end.

(** ** Search *)

(** Body of the loop of [minimax], with [rec] the recursive call. *)
Definition minimax_body (rec : M Z) (mlist : move_list) (i : nat) (score : Z)
  : M Z :=
  do_move (move mlist !!! i);;
  score_best ← rec;
  undo_move (move mlist !!! i);;
  p ← get_pos;
  if decide (color p = WHITE) then mret (MAX score score_best)
  else mret (MIN score score_best).

Fixpoint minimax (fuel : nat) (depth : Z) : M Z :=
  match fuel with
  | O => out_of_fuel
  | S fuel' =>
      incr_nodecount;;
      p ← get_pos;
      let won := checkmate p in
      if negb (won =? 0) then
        mret (if decide (color p = WHITE) then - INF else INF)
      else if negb (board_empty p) then mret 0
      else
        let score := eval p in
        if depth =? 0 then
          mret (if decide (color p = WHITE) then - score else score)
        else
          let mlist := move_generate p mlist_uninit in
          let score := if decide (color p = WHITE) then - INF else INF in
          for_loop (seq 0 (moves mlist))
                   (minimax_body (minimax fuel' (depth - 1)) mlist) score
  end.

(** Body of the loop of [move_pick]; the accumulator is
    [(move_picked, score_current)]. *)
Definition move_pick_body (rec : M Z) (mlist : move_list) (i : nat)
    (acc : Z * Z) : M (Z * Z) :=
  do_move (move mlist !!! i);;
  score_of_candidate_move ← rec;
  undo_move (move mlist !!! i);;
  p ← get_pos;
  if decide (color p = WHITE) then
    if score_of_candidate_move >? acc.2
    then mret (move mlist !!! i, score_of_candidate_move) else mret acc
  else
    if score_of_candidate_move <? acc.2
    then mret (move mlist !!! i, score_of_candidate_move) else mret acc.

(** [move_pick]: the two [assert]s are kept; on a full board [move_picked]
    is [MOVE_NONE] and the second one reads outside the array in C, where
    the model reads square 0 and fails the assertion. *)
Definition move_pick (fuel : nat) (depth : Z) : M Z :=
  set_nodecount 0;;
  p ← get_pos;
  let mlist := move_generate p mlist_uninit in
  let move_picked := move mlist !!! 0%nat in
  let score_current := if decide (color p = WHITE) then - INF else INF in
  acc ← for_loop (seq 0 (moves mlist))
                 (move_pick_body (minimax fuel depth) mlist)
                 (move_picked, score_current);
  assert (acc.1 <? Z.of_nat SQUARES_MAX);;
  p' ← get_pos;
  assert (bool_decide (sq p' !!! Z.to_nat acc.1 = EMPTY));;
  mret acc.1.

(** ** Printing *)

(** The line feed that ends a printed line. *)
Definition LF : string := String (ascii_of_nat 10) EmptyString.




(** The [switch] of [display_board]. *)
Definition display_square (c : piece) : string :=
  match c with WHITE => "X" | BLACK => "O" | EMPTY => " " end.

Definition board_rule : string := "+---+---+---+" +:+ LF.

(** The loop of [display_board] over the squares [idx]. *)
Fixpoint display_board_loop (sqs : list piece) (idx : list nat) : string :=
  match idx with
  | [] => ""
  | i :: rest =>
      "| " +:+ display_square (sqs !!! i) +:+ " " +:+
      (if decide (i = 2 ∨ i = 5 ∨ i = 8)%nat then "|" +:+ LF +:+ board_rule else "")
      +:+ display_board_loop sqs rest
  end.

(** [display_board] *)
Definition display_board (p : board_pos) : string :=
  LF +:+ board_rule +:+ display_board_loop (sq p) (seq 0 SQUARES_MAX) +:+ LF.

(** ** Playing a game *)

(** A game reads its input with [getchar]: the characters of [inp] one after
    the other, and [EOF] for ever once they are used up.  Of what a game
    prints, the verdict is kept. *)
Inductive message : Set :=
| MsgWins (side : string)       (* printf("%s wins!\n", side) *)
| MsgWonBy (player : string)    (* printf("%s won the game!", player) *)
| MsgDraw.                      (* printf("Draw!\n") *)

Inductive game_outcome (A : Type) : Type :=
| Played (a : A) (inp : list ascii) (s : state)
                        (* returned [a], with [inp] left to read *)
| GameAssertFail        (* an [assert] failed *)
| GameOutOfFuel         (* the fuel of the model ran out *)
| EndOfInput.           (* a prompt reads [EOF] over and over, for ever *)
Arguments Played {A} a inp s.
Arguments GameAssertFail {A}.
Arguments GameOutOfFuel {A}.
Arguments EndOfInput {A}.

(** The [switch] on the character read in [make_move]. *)
Definition square_of_char (c : ascii) : option Z :=
  if decide (c = "0"%char) then Some 0 else if decide (c = "1"%char) then Some 1
  else if decide (c = "2"%char) then Some 2 else if decide (c = "3"%char) then Some 3
  else if decide (c = "4"%char) then Some 4 else if decide (c = "5"%char) then Some 5
  else if decide (c = "6"%char) then Some 6 else if decide (c = "7"%char) then Some 7
  else if decide (c = "8"%char) then Some 8 else None.

(** The prompt loop of [make_move] ([choose_square:]): read characters until
    one names an empty square.  At the end of the input the loop goes on
    reading [EOF] and never leaves ([None]). *)
Fixpoint choose_square (p : board_pos) (inp : list ascii) : option (Z * list ascii) :=
  match inp with
  | [] => None
  | c :: rest =>
      match square_of_char c with
      | Some sq_ =>
          if decide (sq p !!! Z.to_nat sq_ = EMPTY) then Some (sq_, rest)
          else choose_square p rest
      | None => choose_square p rest
      end
  end.

(** [make_move] *)
Definition make_move (fuel : nat) (human : bool) (depth : Z) (inp : list ascii)
    (s : state) : game_outcome unit :=
  if human then
    match choose_square (pos s) inp with
    | Some (move_, inp') =>
        Played tt inp' (mk_state (move_do (pos s) move_) (nodecount s))
    | None => EndOfInput
    end
  else
    match move_pick fuel depth s with
    | Ok best_sq s' =>
        Played tt inp (mk_state (move_do (pos s') best_sq) (nodecount s'))
    | AssertFail => GameAssertFail
    | OutOfFuel => GameOutOfFuel
    end.

(** The [while] loop of [newgame], at most [rounds] times round; it returns
    what the loop printed of the verdict. *)
Fixpoint newgame_loop (rounds fuel : nat) (human : bool) (depth : Z)
    (inp : list ascii) (s : state) : game_outcome (list message) :=
  if board_empty (pos s) then
    match rounds with
    | O => GameOutOfFuel
    | S rounds' =>
        match make_move fuel human depth inp s with
        | Played _ inp' s' =>
            let human' := if human then false else true in
            if negb (checkmate (pos s') =? 0) then
              Played [ MsgWins (if decide (color (pos s') = WHITE)
                                then "Black (O)" else "White (X)");
                       MsgWonBy (if human' then "AI" else "You") ]
                     inp' s'
            else newgame_loop rounds' fuel human' depth inp' s'
        | GameAssertFail => GameAssertFail
        | GameOutOfFuel => GameOutOfFuel
        | EndOfInput => EndOfInput
        end
    end
  else Played [] inp s.

(** [newgame], started with the node counter at [n]: the verdict printed and
    the final position. *)
Definition newgame (rounds fuel : nat) (human : bool) (depth : Z)
    (inp : list ascii) (n : Z) : game_outcome (list message) :=
  match newgame_loop rounds fuel human depth inp (mk_state start_pos n) with
  | Played msgs inp' s' =>
      Played (msgs ++ (if negb (checkmate (pos s') =? 0) then [] else [MsgDraw]))
             inp' s'
  | GameAssertFail => GameAssertFail
  | GameOutOfFuel => GameOutOfFuel
  | EndOfInput => EndOfInput
  end.

(** ** The menus *)

(** A menu of [game_loop]: read characters until [choice] accepts one
    ([default: goto] the menu again).  At the end of the input the menu goes
    on reading [EOF] and never leaves ([None]). *)
Fixpoint read_menu {A} (choice : ascii → option A) (inp : list ascii)
  : option (A * list ascii) :=
  match inp with
  | [] => None
  | c :: rest =>
      match choice c with
      | Some a => Some (a, rest)
      | None => read_menu choice rest
      end
  end.

(** [move_first_menu]: the value of [human]. *)
Definition move_first_choice (c : ascii) : option bool :=
  if decide (c = "y"%char) then Some true
  else if decide (c = "n"%char) then Some false else None.

(** [difficulty_menu]: the value of [depth]. *)
Definition difficulty_choice (c : ascii) : option Z :=
  if decide (c = "h"%char) then Some 9
  else if decide (c = "m"%char) then Some 3
  else if decide (c = "e"%char) then Some 1 else None.

(** [newgame_menu]: whether to play again. *)
Definition newgame_choice (c : ascii) : option bool :=
  if decide (c = "y"%char) then Some true
  else if decide (c = "n"%char) then Some false else None.

(** [game_loop], for at most [games] games: the depth and the verdict of
    every game that was played to its end, in order, and how the session
    ends ([Played]: [game_loop] returns after "Goodbye!").  The node counter
    is a static variable and is carried from one game to the next. *)
Fixpoint game_loop (games rounds fuel : nat) (inp : list ascii) (n : Z)
  : list (Z * list message) * game_outcome unit :=
  match games with
  | O => ([], GameOutOfFuel)
  | S games' =>
      match read_menu move_first_choice inp with
      | None => ([], EndOfInput)
      | Some (human, inp1) =>
          match read_menu difficulty_choice inp1 with
          | None => ([], EndOfInput)
          | Some (depth, inp2) =>
              match newgame rounds fuel human depth inp2 n with
              | Played msgs inp3 s' =>
                  match read_menu newgame_choice inp3 with
                  | None => ([(depth, msgs)], EndOfInput)
                  | Some (again, inp4) =>
                      if again then
                        let (log, ending) :=
                          game_loop games' rounds fuel inp4 (nodecount s') in
                        ((depth, msgs) :: log, ending)
                      else ([(depth, msgs)], Played tt inp4 s')
                  end
              | GameAssertFail => ([], GameAssertFail)
              | GameOutOfFuel => ([], GameOutOfFuel)
              | EndOfInput => ([], EndOfInput)
              end
          end
      end
  end.

(** * Vocabulary of the statements and proofs *)

(** ** Counting marks *)

(** Number of squares of the board that hold [c]. *)
Definition count_piece (c : piece) (p : board_pos) : nat :=
  length (filter (λ x, x = c) (sq p)).

(** The invariant of the data model: the two counts differ by at most one and
    the side to move is a mark whose count is not greater than the other's. *)
Definition count_inv (p : board_pos) : Prop :=
  (count_piece WHITE p ≤ count_piece BLACK p + 1)%nat ∧
  (count_piece BLACK p ≤ count_piece WHITE p + 1)%nat ∧
  (count_piece (color p) p ≤ count_piece (flip_color (color p)) p)%nat.

(** The same with the convention that WHITE moves first. *)
Definition count_inv_white_first (p : board_pos) : Prop :=
  (color p = WHITE ∧ count_piece WHITE p = count_piece BLACK p) ∨
  (color p = BLACK ∧ count_piece WHITE p = S (count_piece BLACK p)).

(** ** Lines and empty squares *)

(** The three squares [a], [b], [c] all hold [mark]. *)
Definition line_of (p : board_pos) (mark : piece) (a b c : nat) : Prop :=
  sq p !!! a = mark ∧ sq p !!! b = mark ∧ sq p !!! c = mark.

(** The indices of [idx] whose square is empty, in the order of [idx]. *)
Definition empty_squares (p : board_pos) (idx : list nat) : list nat :=
  filter (λ i, sq p !!! i = EMPTY) idx.

(** ** Specifications of monadic computations *)

(** Partial correctness: if the computation returns, [Q] holds of the result. *)
Definition post {A} (c : M A) (s : state) (Q : A → state → Prop) : Prop :=
  match c s with
  | Ok a s' => Q a s'
  | _ => True
  end.

(** Total correctness: the computation returns and [Q] holds of the result. *)
Definition wp {A} (c : M A) (s : state) (Q : A → state → Prop) : Prop :=
  match c s with
  | Ok a s' => Q a s'
  | _ => False
  end.

(** Fuel that is enough for a call: more frames than the depth asks for, or
    more frames than the board has empty squares. *)
Definition enough_fuel (fuel : nat) (depth : Z) (p : board_pos) : Prop :=
  0 ≤ depth < Z.of_nat fuel ∨ (count_piece EMPTY p < fuel)%nat.

(** Two outcomes that agree on everything but the node counter. *)
Definition same_result {A} (o1 o2 : outcome A) : Prop :=
  match o1, o2 with
  | Ok a1 s1, Ok a2 s2 => a1 = a2 ∧ pos s1 = pos s2
  | AssertFail, AssertFail => True
  | OutOfFuel, OutOfFuel => True
  | _, _ => False
  end.

(** ** Scores as functions of the position *)

(** The score [minimax] gives to position [p], as a function: the value of a
    call started with a fresh node counter (0 if it does not return). *)
Definition minimax_score (fuel : nat) (depth : Z) (p : board_pos) : Z :=
  match minimax fuel depth (mk_state p 0) with
  | Ok v _ => v
  | _ => 0
  end.

(** The horizon rule as the design document words it: at depth 0 the
    heuristic itself for WHITE to move, its negation for BLACK to move. *)
Definition horizon_sign_white_positive : Prop :=
  ∀ (p : board_pos) (n : Z) (fuel : nat),
    wf_pos p → checkmate p = 0 → board_empty p = true →
    ∃ s', minimax (S fuel) 0 (mk_state p n)
          = Ok (if decide (color p = WHITE) then eval p else - eval p) s'.

(** Folding the scores [child m] of the candidates into the accumulator, with
    [MAX] for WHITE to move and [MIN] otherwise. *)
Definition fold_scores (c : piece) (child : Z → Z) (cands : list Z) (init : Z) : Z :=
  fold_left
    (λ score m, if decide (c = WHITE) then MAX score (child m) else MIN score (child m))
    cands init.

(** ** Transposition table *)

#[global] Instance piece_countable : Countable piece.
Proof.
  refine (inj_countable'
            (λ c, match c with WHITE => 0 | BLACK => 1 | EMPTY => 2 end)%nat
            (λ n, match n with 0 => WHITE | 1 => BLACK | _ => EMPTY end)%nat _).
  by intros [].
Defined.

(** The score of a search that is deep enough to reach the end of the game
    on every line: as many plies as the board has empty squares. *)
Definition full_score (p : board_pos) : Z :=
  minimax_score 10 (Z.of_nat (count_piece EMPTY p)) p.

(** Scores already known, by squares and side to move. *)
Abbreviation memo := (gmap (list piece * piece) Z).

Definition key (p : board_pos) : list piece * piece := (sq p, color p).

Definition memo_step (search : board_pos → memo → Z * memo) (p : board_pos)
    (acc : Z * memo) (m : Z) : Z * memo :=
  let r := search (move_do p m) acc.2 in
  (if decide (color p = WHITE) then MAX acc.1 r.1 else MIN acc.1 r.1, r.2).

(** The exhaustive search of [minimax], looking every position up in the
    table before searching below it. *)
Fixpoint memo_search (fuel : nat) (p : board_pos) (t : memo) : Z * memo :=
  match t !! key p with
  | Some v => (v, t)
  | None =>
      match fuel with
      | O => (0, t)
      | S fuel' =>
          let r :=
            if negb (checkmate p =? 0) then
              (if decide (color p = WHITE) then - INF else INF, t)
            else if negb (board_empty p) then (0, t)
            else
              fold_left (memo_step (memo_search fuel') p)
                (generated (move_generate p mlist_uninit))
                (if decide (color p = WHITE) then - INF else INF, t)
          in (r.1, <[ key p := r.1 ]> r.2)
      end
  end.

(** Every score in the table is the score of the exhaustive search. *)
Definition memo_ok (t : memo) : Prop :=
  ∀ p v, wf_pos p → t !! key p = Some v → full_score p = v.

(** ** Move selection *)

(** One round of the loop of [move_pick] on the accumulator
    [(move_picked, score_current)], given the score of each candidate. *)
Definition pick_step (c : piece) (score : Z → Z) (acc : Z * Z) (m : Z) : Z * Z :=
  if decide (c = WHITE) then (if score m >? acc.2 then (m, score m) else acc)
  else (if score m <? acc.2 then (m, score m) else acc).

(** [better c a b]: for the side [c], the score [a] is a strict improvement
    on [b] (greater for WHITE, smaller for BLACK). *)
Definition better (c : piece) (a b : Z) : Prop :=
  if decide (c = WHITE) then b < a else a < b.

(** ** Counting the calls of [minimax] *)

(** The number of calls of [minimax] in the search below position [p]: the
    call itself, and for a call that recurses the calls under each of its
    candidate moves (0 when the fuel is used up). *)
Fixpoint minimax_nodes (fuel : nat) (depth : Z) (p : board_pos) : Z :=
  match fuel with
  | O => 0
  | S fuel' =>
      if negb (checkmate p =? 0) then 1
      else if negb (board_empty p) then 1
      else if depth =? 0 then 1
      else
        fold_left (λ n m, n + minimax_nodes fuel' (depth - 1) (move_do p m))
                  (generated (move_generate p mlist_uninit)) 1
  end.

(** The size of the full tree of move sequences on [k] empty squares:
    1, 2, 5, 16, 65, 326, 1957, 13700, 109601, 986410. *)
Fixpoint nodes_bound (k : nat) : Z :=
  match k with
  | O => 1
  | S k' => 1 + Z.of_nat k * nodes_bound k'
  end.

(** ** Threats on a line *)

(** How many squares of [line] hold [c]. *)
Definition line_count (p : board_pos) (c : piece) (line : list nat) : nat :=
  length (filter (λ j, sq p !!! j = c) line).

(** The side to move holds two squares of the line and the third is empty. *)
Definition open_threat (p : board_pos) (line : list nat) : Prop :=
  line_count p (color p) line = 2%nat ∧ line_count p EMPTY line = 1%nat.

(** The side to move holds two squares of the line and the other side the
    third. *)
Definition blocked_threat (p : board_pos) (line : list nat) : Prop :=
  line_count p (color p) line = 2%nat ∧
  line_count p (flip_color (color p)) line = 1%nat.

(** ** Exchanging the two sides *)

Definition swap_color (c : piece) : piece :=
  match c with WHITE => BLACK | BLACK => WHITE | EMPTY => EMPTY end.

(** The position with every mark, and the side to move, exchanged. *)
Definition swap_pos (p : board_pos) : board_pos :=
  mk_pos (swap_color <$> sq p) (swap_color (color p)).

(** ** Playing *)

(** A character the prompt of [make_move] does not accept on [p]: it is not
    one of '0' to '8', or it names a square that is taken. *)
Definition rejected (p : board_pos) (c : ascii) : Prop :=
  ∀ m, square_of_char c = Some m → sq p !!! Z.to_nat m ≠ EMPTY.

(** The score of the exhaustive search, seen from the side to move:
    positive when the side to move wins with best play. *)
Definition mover_value (p : board_pos) : Z :=
  if decide (color p = WHITE) then full_score p else - full_score p.

(** The nine digits a prompt of [make_move] can accept, and [k] rounds of
    them: whatever the board, a prompt that still has a round of digits to
    read finds an empty square among them. *)
Definition all_digits : list ascii :=
  ["0"; "1"; "2"; "3"; "4"; "5"; "6"; "7"; "8"]%char.

Definition digit_rounds (k : nat) : list ascii := concat (replicate k all_digits).

(** Keys that bring a session to its end from any prompt: no first move,
    hard level, digits for five moves, no new game. *)
Definition session_exit : list ascii :=
  ["n"; "h"]%char ++ digit_rounds 5 ++ ["n"]%char.

(** * Properties *)

(** ** Colors and well-formedness *)

Ltac flip_simpl :=
  repeat (progress (change (flip_color WHITE) with BLACK in *;
                    change (flip_color BLACK) with WHITE in *)).

Lemma flip_color_not_empty c : flip_color c ≠ EMPTY.
Proof. by destruct c. Qed.

Lemma flip_color_involutive c : c ≠ EMPTY → flip_color (flip_color c) = c.
Proof. by destruct c. Qed.

Lemma wf_posb_spec p : wf_posb p = true ↔ wf_pos p.
Proof.
  unfold wf_posb, wf_pos.
  rewrite andb_true_iff, Nat.eqb_eq, bool_decide_eq_true. tauto.
Qed.

Lemma move_do_wf p m : wf_pos p → wf_pos (move_do p m).
Proof.
  intros [Hlen _]. split; simpl.
  - by rewrite length_insert.
  - apply flip_color_not_empty.
Qed.

Lemma move_undo_wf p m : wf_pos p → wf_pos (move_undo p m).
Proof.
  intros [Hlen _]. split; simpl.
  - by rewrite length_insert.
  - apply flip_color_not_empty.
Qed.

(** A move on an empty square, taken back, leaves the position as it was. *)
Lemma move_undo_move_do p m :
  color p ≠ EMPTY → sq p !! Z.to_nat m = Some EMPTY →
  move_undo (move_do p m) m = p.
Proof.
  intros Hc Hm. destruct p as [sqs c]. unfold move_undo, move_do; simpl in *.
  rewrite list_insert_insert_eq, (list_insert_id _ _ _ Hm).
  by rewrite flip_color_involutive.
Qed.

Lemma lookup_total_Some (sqs : list piece) i :
  (i < length sqs)%nat → sqs !! i = Some (sqs !!! i).
Proof. intros H. by apply list_lookup_lookup_total_lt. Qed.

(** ** Counting under an update of one square *)

Lemma count_insert (c a b : piece) (sqs : list piece) i :
  sqs !! i = Some a →
  (length (filter (λ x, x = c) (<[ i := b ]> sqs)) + (if decide (a = c) then 1 else 0)
   = length (filter (λ x, x = c) sqs) + (if decide (b = c) then 1 else 0))%nat.
Proof.
  revert i. induction sqs as [|x sqs IH]; intros [|i] H; simplify_eq/=.
  - rewrite !filter_cons. repeat case_decide; simpl; lia.
  - specialize (IH _ H). rewrite !filter_cons. repeat case_decide; simpl in *; lia.
Qed.

Lemma count_move_do c p m :
  sq p !! Z.to_nat m = Some EMPTY →
  (count_piece c (move_do p m) + (if decide (EMPTY = c) then 1 else 0)
   = count_piece c p + (if decide (color p = c) then 1 else 0))%nat.
Proof. intros H. apply (count_insert c EMPTY (color p) (sq p) _ H). Qed.

Lemma count_move_undo c p m a :
  sq p !! Z.to_nat m = Some a →
  (count_piece c (move_undo p m) + (if decide (a = c) then 1 else 0)
   = count_piece c p + (if decide (EMPTY = c) then 1 else 0))%nat.
Proof. intros H. apply (count_insert c a EMPTY (sq p) _ H). Qed.

Lemma count_total (sqs : list piece) :
  (length (filter (λ x, x = WHITE) sqs) + length (filter (λ x, x = BLACK) sqs)
   + length (filter (λ x, x = EMPTY) sqs) = length sqs)%nat.
Proof.
  induction sqs as [|x sqs IH]; [done|].
  rewrite !filter_cons. destruct x; repeat case_decide; simplify_eq/=; lia.
Qed.

(** ** Apply and undo *)

(** C5: for every position and every move whose target square is empty,
    [move_do] followed by [move_undo] of the same move gives back a position
    equal to the original one in all nine squares and in the side to move. *)
Theorem move_do_undo_restores (p : board_pos) (m : Z) :
  wf_pos p → 0 ≤ m < Z.of_nat SQUARES_MAX → sq p !!! Z.to_nat m = EMPTY →
  move_undo (move_do p m) m = p ∧
  sq (move_undo (move_do p m) m) = sq p ∧
  color (move_undo (move_do p m) m) = color p.
Proof.
  intros [Hlen Hc] Hm He.
  assert (move_undo (move_do p m) m = p) as ->; [|done].
  apply move_undo_move_do; [done|].
  rewrite <- He. apply lookup_total_Some. unfold SQUARES_MAX in *. lia.
Qed.

Lemma move_do_undo_restores_witness :
  let p := mk_pos [WHITE; EMPTY; BLACK; EMPTY; EMPTY; EMPTY; EMPTY; EMPTY; EMPTY] WHITE in
  move_undo (move_do p 4) 4 = p ∧
  sq (move_undo (move_do p 4) 4) = sq p ∧
  color (move_undo (move_do p 4) 4) = color p.
Proof.
  apply move_do_undo_restores.
  - split; [reflexivity | discriminate].
  - unfold SQUARES_MAX; lia.
  - reflexivity.
Defined.

(** ** The count invariant *)

Lemma move_do_count_inv p m :
  color p ≠ EMPTY → sq p !! Z.to_nat m = Some EMPTY →
  count_inv p → count_inv (move_do p m).
Proof.
  intros Hc Hm (Hw & Hb & Hle). unfold count_inv in *.
  pose proof (count_move_do WHITE p m Hm) as HW.
  pose proof (count_move_do BLACK p m Hm) as HB.
  cbn [color move_do] in *.
  destruct (color p); [| |done];
    flip_simpl; repeat case_decide; simplify_eq; lia.
Qed.

(** Undoing the move of the player who moved last preserves the invariant. *)
Lemma move_undo_count_inv q m :
  color q ≠ EMPTY → sq q !! Z.to_nat m = Some (flip_color (color q)) →
  count_inv q → count_inv (move_undo q m).
Proof.
  intros Hc Hm (Hw & Hb & Hle). unfold count_inv in *.
  pose proof (count_move_undo WHITE q m _ Hm) as HW.
  pose proof (count_move_undo BLACK q m _ Hm) as HB.
  cbn [color move_undo] in *.
  destruct (color q); [| |done];
    flip_simpl; repeat case_decide; simplify_eq; lia.
Qed.

Lemma move_do_count_inv_white_first p m :
  sq p !! Z.to_nat m = Some EMPTY →
  count_inv_white_first p → count_inv_white_first (move_do p m).
Proof.
  intros Hm H. unfold count_inv_white_first in *.
  pose proof (count_move_do WHITE p m Hm) as HW.
  pose proof (count_move_do BLACK p m Hm) as HB.
  cbn [color move_do] in *.
  destruct H as [[Hc H]|[Hc H]]; rewrite Hc in *;
    repeat case_decide; simplify_eq; simpl in *; [right|left]; split; (done || lia).
Qed.

Lemma move_undo_count_inv_white_first q m :
  color q ≠ EMPTY → sq q !! Z.to_nat m = Some (flip_color (color q)) →
  count_inv_white_first q → count_inv_white_first (move_undo q m).
Proof.
  intros Hc Hm H. unfold count_inv_white_first in *.
  pose proof (count_move_undo WHITE q m _ Hm) as HW.
  pose proof (count_move_undo BLACK q m _ Hm) as HB.
  cbn [color move_undo] in *.
  destruct H as [[Hq H]|[Hq H]]; rewrite Hq in *; flip_simpl;
    repeat case_decide; simplify_eq; [right|left]; split; (done || lia).
Qed.

Lemma move_do_lookup p m :
  (Z.to_nat m < length (sq p))%nat →
  sq (move_do p m) !! Z.to_nat m = Some (color p).
Proof. intros H. simpl. by apply list_lookup_insert_eq. Qed.

(** C8: the count invariant (the numbers of WHITE and BLACK marks differ by at
    most one, and the side to move is a mark whose count is not greater than
    the other's) is preserved by [move_do] on an empty square and by the
    matching [move_undo]. *)
Theorem count_inv_preserved (p : board_pos) (m : Z) :
  wf_pos p → count_inv p →
  0 ≤ m < Z.of_nat SQUARES_MAX → sq p !!! Z.to_nat m = EMPTY →
  count_inv (move_do p m) ∧ count_inv (move_undo (move_do p m) m).
Proof.
  intros [Hlen Hc] Hinv Hm He.
  assert (Z.to_nat m < length (sq p))%nat as Hlt
    by (unfold SQUARES_MAX in *; lia).
  assert (sq p !! Z.to_nat m = Some EMPTY) as Hl
    by (rewrite <- He; by apply lookup_total_Some).
  assert (count_inv (move_do p m)) as Hdo by by apply move_do_count_inv.
  split; [done|].
  apply move_undo_count_inv; [apply flip_color_not_empty | | done].
  rewrite move_do_lookup by done.
  cbn [color move_do]. by rewrite flip_color_involutive.
Qed.

Lemma count_inv_preserved_witness :
  let p := mk_pos [WHITE; EMPTY; BLACK; EMPTY; WHITE; EMPTY; EMPTY; EMPTY; EMPTY] BLACK in
  count_inv (move_do p 8) ∧ count_inv (move_undo (move_do p 8) 8).
Proof.
  apply count_inv_preserved.
  - split; [reflexivity | discriminate].
  - unfold count_inv; vm_compute; lia.
  - unfold SQUARES_MAX; lia.
  - reflexivity.
Defined.

(** ** Terminal detection *)

Lemma checkmate_line3 (sqs : list piece) (mark : piece) (a b c : nat) :
  (checkmate_line sqs mark [a; b; c] 0 =? 3)
  = bool_decide (sqs !!! a = mark ∧ sqs !!! b = mark ∧ sqs !!! c = mark).
Proof.
  cbn [checkmate_line]. unfold bool_decide.
  repeat case_decide; first [reflexivity | exfalso; tauto].
Qed.

Lemma checkmate_lines_spec (p : board_pos) :
  let mark := flip_color (color p) in
  (checkmate p = 1 ∨ checkmate p = 0) ∧
  (checkmate p = 1 ↔
     line_of p mark 0 1 2 ∨ line_of p mark 3 4 5 ∨ line_of p mark 6 7 8 ∨
     line_of p mark 0 3 6 ∨ line_of p mark 1 4 7 ∨ line_of p mark 2 5 8 ∨
     line_of p mark 0 4 8 ∨ line_of p mark 2 4 6).
Proof.
  intros mark. unfold checkmate, line_of. fold mark.
  unfold winning_squares. cbn [checkmate_lines]. rewrite !checkmate_line3.
  repeat (case_bool_decide;
          [ split; [by left|]; split; [tauto | reflexivity] | ]).
  split; [by right|]. split; [discriminate | tauto].
Qed.

(** C3: [checkmate] returns true (1) if and only if one of the eight fixed
    triples is held entirely by the mark that is not the side to move;
    otherwise it returns 0. *)
Theorem checkmate_iff_line (p : board_pos) (mark : piece) :
  wf_pos p → mark ≠ EMPTY → mark ≠ color p →
  (checkmate p = 1 ↔
     line_of p mark 0 1 2 ∨ line_of p mark 3 4 5 ∨ line_of p mark 6 7 8 ∨
     line_of p mark 0 3 6 ∨ line_of p mark 1 4 7 ∨ line_of p mark 2 5 8 ∨
     line_of p mark 0 4 8 ∨ line_of p mark 2 4 6) ∧
  (checkmate p ≠ 1 → checkmate p = 0).
Proof.
  intros [_ Hc] Hm Hne.
  assert (mark = flip_color (color p)) as ->
    by (destruct mark, (color p); done).
  destruct (checkmate_lines_spec p) as [H01 Hiff]. split; [exact Hiff|].
  intros. by destruct H01.
Qed.

Lemma checkmate_iff_line_witness :
  let p := mk_pos [WHITE; WHITE; WHITE; BLACK; BLACK; EMPTY; EMPTY; EMPTY; EMPTY] BLACK in
  (checkmate p = 1 ↔
     line_of p WHITE 0 1 2 ∨ line_of p WHITE 3 4 5 ∨ line_of p WHITE 6 7 8 ∨
     line_of p WHITE 0 3 6 ∨ line_of p WHITE 1 4 7 ∨ line_of p WHITE 2 5 8 ∨
     line_of p WHITE 0 4 8 ∨ line_of p WHITE 2 4 6) ∧
  (checkmate p ≠ 1 → checkmate p = 0).
Proof.
  apply checkmate_iff_line.
  - split; [reflexivity | discriminate].
  - discriminate.
  - simpl; discriminate.
Defined.

(** ** Move generation *)

Lemma move_generate_reset_spec mp :
  length (move mp) = MOVES_MAX →
  move_generate_reset mp = mk_mlist (replicate MOVES_MAX MOVE_NONE) 0.
Proof.
  unfold move_generate_reset, MOVES_MAX. intros H. f_equal.
  destruct (move mp) as [|x0 [|x1 [|x2 [|x3 [|x4 [|x5 [|x6 [|x7 [|x8 [|x9 l]]]]]]]]]];
    by simplify_eq/=.
Qed.

(** Invariant of the second loop of [move_generate]: the entries in use grow
    by the empty squares met, everything else keeps its place. *)
Lemma move_generate_loop p idx mp :
  (moves mp + length idx ≤ length (move mp))%nat →
  let r := fold_left (move_generate_step p) idx mp in
  generated r = generated mp ++ (Z.of_nat <$> empty_squares p idx) ∧
  moves r = (moves mp + length (empty_squares p idx))%nat ∧
  length (move r) = length (move mp).
Proof.
  revert mp. induction idx as [|i idx IH]; intros mp Hlen; cbn [fold_left].
  - unfold empty_squares. rewrite filter_nil. simpl.
    by rewrite app_nil_r, Nat.add_0_r.
  - simpl in Hlen. unfold empty_squares. rewrite filter_cons.
    destruct (decide (sq p !!! i = EMPTY)) as [He|He].
    + replace (move_generate_step p mp i)
        with (mk_mlist (<[moves mp:=Z.of_nat i]> (move mp)) (S (moves mp)))
        by (unfold move_generate_step; by rewrite decide_True).
      destruct (IH (mk_mlist (<[moves mp:=Z.of_nat i]> (move mp)) (S (moves mp))))
        as (Hg & Hm & Hl).
      { simpl. rewrite length_insert. lia. }
      fold (empty_squares p idx).
      rewrite Hg, Hm, Hl. simpl. rewrite length_insert. split_and!; [|lia|done].
      unfold generated; simpl.
      rewrite (take_S_r _ _ (Z.of_nat i)) by (apply list_lookup_insert_eq; lia).
      rewrite take_insert_ge by lia. by rewrite <- app_assoc.
    + replace (move_generate_step p mp i) with mp
        by (unfold move_generate_step; by rewrite decide_False).
      apply IH. lia.
Qed.

Lemma move_generate_generated p mp :
  length (move mp) = MOVES_MAX →
  generated (move_generate p mp) = Z.of_nat <$> empty_squares p (seq 0 SQUARES_MAX) ∧
  moves (move_generate p mp) = length (empty_squares p (seq 0 SQUARES_MAX)) ∧
  length (move (move_generate p mp)) = MOVES_MAX.
Proof.
  intros H. unfold move_generate. rewrite move_generate_reset_spec by done.
  destruct (move_generate_loop p (seq 0 SQUARES_MAX)
              (mk_mlist (replicate MOVES_MAX MOVE_NONE) 0)) as (Hg & Hm & Hl).
  { cbn [move moves]. rewrite length_replicate, length_seq. done. }
  rewrite Hg, Hm, Hl. cbn [move moves]. by rewrite length_replicate.
Qed.

(** The content of the out-parameter before the call does not matter. *)
Lemma move_generate_fresh p mp mp' :
  length (move mp) = MOVES_MAX → length (move mp') = MOVES_MAX →
  move_generate p mp = move_generate p mp'.
Proof.
  intros H H'. unfold move_generate. by rewrite !move_generate_reset_spec.
Qed.

Lemma sorted_filter_seq (P : nat → Prop) `{!∀ i, Decision (P i)} a n :
  StronglySorted Z.lt (Z.of_nat <$> filter P (seq a n)).
Proof.
  revert a. induction n as [|n IH]; intros a; simpl; [constructor|].
  assert (Forall (Z.lt (Z.of_nat a)) (Z.of_nat <$> filter P (seq (S a) n))) as Hall.
  { apply Forall_fmap, Forall_forall. intros x [_ Hx%elem_of_seq]%list_elem_of_filter.
    simpl. lia. }
  rewrite filter_cons. case_decide; simpl; [|apply IH].
  constructor; [apply IH | done].
Qed.

Lemma count_filter_seq (c : piece) (pre l : list piece) :
  length (filter (λ i, (pre ++ l) !!! i = c) (seq (length pre) (length l)))
  = length (filter (λ x, x = c) l).
Proof.
  revert pre. induction l as [|x l IH]; intros pre; [done|].
  simpl. rewrite !filter_cons, list_lookup_total_middle by done.
  specialize (IH (pre ++ [x])). rewrite <- app_assoc, length_app in IH.
  simpl in IH. rewrite Nat.add_1_r in IH.
  case_decide; simpl; by rewrite IH.
Qed.

Lemma length_empty_squares p :
  length (sq p) = SQUARES_MAX →
  length (empty_squares p (seq 0 SQUARES_MAX)) = count_piece EMPTY p.
Proof.
  intros H. unfold empty_squares, count_piece. rewrite <- H.
  apply (count_filter_seq EMPTY [] (sq p)).
Qed.

Lemma elem_of_generated p mp m :
  length (move mp) = MOVES_MAX →
  m ∈ generated (move_generate p mp) ↔
  0 ≤ m < Z.of_nat SQUARES_MAX ∧ sq p !!! Z.to_nat m = EMPTY.
Proof.
  intros H. destruct (move_generate_generated p mp H) as (-> & _ & _).
  rewrite list_elem_of_fmap. unfold empty_squares. split.
  - intros (i & -> & [He Hi%elem_of_seq]%list_elem_of_filter).
    rewrite Nat2Z.id. split; [lia | done].
  - intros [Hm He]. exists (Z.to_nat m). split; [lia|].
    apply list_elem_of_filter. split; [done|]. apply elem_of_seq. lia.
Qed.

Lemma generated_sorted p mp :
  length (move mp) = MOVES_MAX →
  StronglySorted Z.lt (generated (move_generate p mp)).
Proof.
  intros Hmp. destruct (move_generate_generated p mp Hmp) as (-> & _ & _).
  apply sorted_filter_seq.
Qed.

(** C4: [move_generate] produces exactly the indices 0-8 whose square is
    empty, in strictly ascending order, and as many of them as 9 minus the
    number of WHITE and BLACK marks. *)
Theorem move_generate_spec (p : board_pos) (mp : move_list) :
  wf_pos p → length (move mp) = MOVES_MAX →
  let ml := move_generate p mp in
  (∀ m, m ∈ generated ml ↔
        0 ≤ m < Z.of_nat SQUARES_MAX ∧ sq p !!! Z.to_nat m = EMPTY) ∧
  StronglySorted Z.lt (generated ml) ∧
  length (generated ml) = moves ml ∧
  moves ml = (9 - (count_piece WHITE p + count_piece BLACK p))%nat.
Proof.
  intros [Hlen _] Hmp ml. split_and!.
  - intros m. by apply elem_of_generated.
  - by apply generated_sorted.
  - unfold ml. destruct (move_generate_generated p mp Hmp) as (-> & -> & _).
    by rewrite length_fmap.
  - unfold ml. destruct (move_generate_generated p mp Hmp) as (_ & -> & _).
    rewrite length_empty_squares by done.
    pose proof (count_total (sq p)) as Ht. unfold count_piece.
    rewrite Hlen in Ht. unfold SQUARES_MAX in Ht. lia.
Qed.

Lemma move_generate_spec_witness :
  let p := mk_pos [WHITE; EMPTY; BLACK; EMPTY; WHITE; EMPTY; EMPTY; BLACK; EMPTY] WHITE in
  let ml := move_generate p mlist_uninit in
  (∀ m, m ∈ generated ml ↔
        0 ≤ m < Z.of_nat SQUARES_MAX ∧ sq p !!! Z.to_nat m = EMPTY) ∧
  StronglySorted Z.lt (generated ml) ∧
  length (generated ml) = moves ml ∧
  moves ml = (9 - (count_piece WHITE p + count_piece BLACK p))%nat.
Proof.
  apply move_generate_spec.
  - split; [reflexivity | discriminate].
  - reflexivity.
Defined.

Example move_generate_example :
  move_generate
    (mk_pos [WHITE; EMPTY; BLACK; EMPTY; WHITE; EMPTY; EMPTY; BLACK; EMPTY] WHITE)
    mlist_uninit
  = mk_mlist [1; 3; 5; 6; 8; -1; -1; -1; -1] 5.
Proof. reflexivity. Qed.

(** ** Bounds of the heuristic *)

(** One line of three squares moves the score by at most one: with two of
    ours on it there is one square left, and with three there is none. *)
Lemma eval_line_bound p pts a b c :
  color p ≠ EMPTY →
  pts - 1 ≤ eval_line p (flip_color (color p)) pts [a; b; c] ≤ pts + 1.
Proof.
  intros Hc. unfold eval_line, eval_ours, eval_points. cbn [fold_left].
  destruct (color p); [| |done]; flip_simpl;
    destruct (sq p !!! a), (sq p !!! b), (sq p !!! c); simpl; lia.
Qed.

Lemma eval_lines_bound p lines pts :
  color p ≠ EMPTY →
  Forall (λ line, ∃ a b c, line = [a; b; c]) lines →
  pts - Z.of_nat (length lines)
  ≤ fold_left (eval_line p (flip_color (color p))) lines pts
  ≤ pts + Z.of_nat (length lines).
Proof.
  intros Hc Hl. revert pts.
  induction Hl as [|line lines (a & b & c & ->) _ IH]; intros pts.
  - simpl. lia.
  - cbn [fold_left length]. specialize (IH (eval_line p (flip_color (color p)) pts [a; b; c])).
    pose proof (eval_line_bound p pts a b c Hc). lia.
Qed.

Lemma winning_squares_lines :
  Forall (λ line, ∃ a b c : nat, line = [a; b; c]) winning_squares.
Proof. unfold winning_squares. repeat constructor; eauto. Qed.

Lemma eval_bound p : color p ≠ EMPTY → -8 ≤ eval p ≤ 8.
Proof.
  intros Hc. unfold eval.
  pose proof (eval_lines_bound p winning_squares 0 Hc winning_squares_lines) as H.
  change (Z.of_nat (length winning_squares)) with 8 in H. lia.
Qed.

Example eval_example :
  eval (mk_pos [WHITE; WHITE; EMPTY; BLACK; BLACK; EMPTY; EMPTY; EMPTY; EMPTY] WHITE) = 1.
Proof. reflexivity. Qed.

(** ** Reasoning about the monad *)

Lemma wp_inv {A} (c : M A) s Q :
  wp c s Q → ∃ a s', c s = Ok a s' ∧ Q a s'.
Proof. unfold wp. destruct (c s); [eauto | done..]. Qed.

Lemma wp_intro {A} (c : M A) s Q a s' : c s = Ok a s' → Q a s' → wp c s Q.
Proof. unfold wp. by intros ->. Qed.

(** Rules for the counting loop [for (i = a; i < a + n; i++)] with an
    invariant [I i acc s] on the counter, the accumulator and the state. *)
Section for_loop_rules.
Context {Acc : Type} (I : nat → Acc → state → Prop) (body : nat → Acc → M Acc).

Lemma for_loop_cons i idx acc s :
  for_loop (i :: idx) body acc s =
  match body i acc s with
  | Ok acc' s' => for_loop idx body acc' s'
  | AssertFail => AssertFail
  | OutOfFuel => OutOfFuel
  end.
Proof. reflexivity. Qed.

(** Partial correctness. *)
Lemma for_loop_post a n acc s :
  I a acc s →
  (∀ k acc s, (a ≤ k < a + n)%nat → I k acc s → post (body k acc) s (I (S k))) →
  post (for_loop (seq a n) body acc) s (I (a + n)%nat).
Proof.
  revert a acc s. induction n as [|n IH]; intros a acc s HI Hbody.
  - unfold post. simpl. by rewrite Nat.add_0_r.
  - unfold post. cbn [seq]. rewrite for_loop_cons.
    pose proof (Hbody a acc s ltac:(lia) HI) as Hb. unfold post in Hb.
    destruct (body a acc s) as [acc' s'| |]; [|done..].
    replace (a + S n)%nat with (S a + n)%nat by lia.
    apply IH; [done|]. intros k acc2 s2 Hk. apply Hbody. lia.
Qed.

(** Total correctness. *)
Lemma for_loop_wp a n acc s :
  I a acc s →
  (∀ k acc s, (a ≤ k < a + n)%nat → I k acc s → wp (body k acc) s (I (S k))) →
  wp (for_loop (seq a n) body acc) s (I (a + n)%nat).
Proof.
  revert a acc s. induction n as [|n IH]; intros a acc s HI Hbody.
  - unfold wp. simpl. by rewrite Nat.add_0_r.
  - unfold wp. cbn [seq]. rewrite for_loop_cons.
    pose proof (Hbody a acc s ltac:(lia) HI) as Hb. unfold wp in Hb.
    destruct (body a acc s) as [acc' s'| |]; [|done..].
    replace (a + S n)%nat with (S a + n)%nat by lia.
    apply IH; [done|]. intros k acc2 s2 Hk. apply Hbody. lia.
Qed.

End for_loop_rules.

(** The loop bodies, with the monadic plumbing computed away. *)
Lemma minimax_body_eq rec mlist i score s :
  minimax_body rec mlist i score s =
  let m := move mlist !!! i in
  match rec (mk_state (move_do (pos s) m) (nodecount s)) with
  | Ok score_best s2 =>
      let p2 := move_undo (pos s2) m in
      Ok (if decide (color p2 = WHITE) then MAX score score_best
          else MIN score score_best)
         (mk_state p2 (nodecount s2))
  | AssertFail => AssertFail
  | OutOfFuel => OutOfFuel
  end.
Proof.
  unfold minimax_body, do_move, undo_move, get_pos, set_pos, mbind, M_bind.
  simpl. destruct (rec _) as [v s2| |]; [|done..].
  simpl. by case_decide.
Qed.

Lemma move_pick_body_eq rec mlist i acc s :
  move_pick_body rec mlist i acc s =
  let m := move mlist !!! i in
  match rec (mk_state (move_do (pos s) m) (nodecount s)) with
  | Ok score s2 =>
      let p2 := move_undo (pos s2) m in
      Ok (if decide (color p2 = WHITE)
          then (if score >? acc.2 then (m, score) else acc)
          else (if score <? acc.2 then (m, score) else acc))
         (mk_state p2 (nodecount s2))
  | AssertFail => AssertFail
  | OutOfFuel => OutOfFuel
  end.
Proof.
  unfold move_pick_body, do_move, undo_move, get_pos, set_pos, mbind, M_bind.
  simpl. destruct (rec _) as [v s2| |]; [|done..].
  simpl. case_decide; by destruct (_ >? _) || by destruct (_ <? _).
Qed.

(** One call of [minimax] with at least one frame of fuel. *)
Lemma minimax_eq fuel depth s :
  minimax (S fuel) depth s =
  let p := pos s in
  let s1 := mk_state p ((nodecount s + 1) mod 2 ^ 32) in
  if negb (checkmate p =? 0) then
    Ok (if decide (color p = WHITE) then - INF else INF) s1
  else if negb (board_empty p) then Ok 0 s1
  else if depth =? 0 then
    Ok (if decide (color p = WHITE) then - eval p else eval p) s1
  else
    let mlist := move_generate p mlist_uninit in
    for_loop (seq 0 (moves mlist))
             (minimax_body (minimax fuel (depth - 1)) mlist)
             (if decide (color p = WHITE) then - INF else INF) s1.
Proof.
  cbn [minimax]. unfold incr_nodecount, get_pos, mbind, M_bind. cbn [pos].
  destruct (negb (checkmate (pos s) =? 0)); [done|].
  destruct (negb (board_empty (pos s))); [done|].
  by destruct (depth =? 0).
Qed.

(** ** The candidates of a search node *)

(** Every entry in use of a generated move list is an empty square of the
    board. *)
Lemma generated_candidate p k :
  wf_pos p →
  (k < moves (move_generate p mlist_uninit))%nat →
  let m := move (move_generate p mlist_uninit) !!! k in
  generated (move_generate p mlist_uninit) !! k = Some m ∧
  0 ≤ m < Z.of_nat SQUARES_MAX ∧
  sq p !! Z.to_nat m = Some EMPTY.
Proof.
  intros [Hlen Hc] Hk m.
  destruct (move_generate_generated p mlist_uninit eq_refl) as (Hg & Hm & Hl).
  assert (generated (move_generate p mlist_uninit) !! k = Some m) as Hlk.
  { unfold generated. rewrite lookup_take_lt by done.
    apply list_lookup_lookup_total_lt. rewrite Hl.
    pose proof (length_filter (λ i, sq p !!! i = EMPTY) (seq 0 SQUARES_MAX)) as Hf.
    rewrite length_seq in Hf. unfold empty_squares in Hm.
    unfold MOVES_MAX, SQUARES_MAX in *. lia. }
  split; [done|].
  apply list_elem_of_lookup_2, elem_of_generated in Hlk as [Hr He]; [|done].
  split; [done|]. rewrite <- He. apply lookup_total_Some.
  unfold SQUARES_MAX in *. lia.
Qed.

Lemma count_empty_move_do p m :
  sq p !! Z.to_nat m = Some EMPTY → color p ≠ EMPTY →
  S (count_piece EMPTY (move_do p m)) = count_piece EMPTY p.
Proof.
  intros Hm Hc. pose proof (count_move_do EMPTY p m Hm) as H.
  rewrite decide_True in H by done. rewrite decide_False in H by done. lia.
Qed.

(** ** Soundness of [minimax]: the position is restored, the score bounded *)

Lemma MAX_bounds a b lo hi : lo ≤ a ≤ hi → lo ≤ b ≤ hi → lo ≤ MAX a b ≤ hi.
Proof. unfold MAX. destruct (Z.gtb_spec a b); lia. Qed.

Lemma MIN_bounds a b lo hi : lo ≤ a ≤ hi → lo ≤ b ≤ hi → lo ≤ MIN a b ≤ hi.
Proof. unfold MIN. destruct (Z.gtb_spec a b); lia. Qed.

Lemma MAX_max a b : MAX a b = Z.max a b.
Proof. unfold MAX. destruct (Z.gtb_spec a b); lia. Qed.

Lemma MIN_min a b : MIN a b = Z.min a b.
Proof. unfold MIN. destruct (Z.gtb_spec a b); lia. Qed.

Lemma minimax_sound fuel : ∀ depth s,
  wf_pos (pos s) →
  post (minimax fuel depth) s (λ v s', pos s' = pos s ∧ - INF ≤ v ≤ INF).
Proof.
  induction fuel as [|fuel IH]; intros depth s Hwf; [done|].
  unfold post. rewrite minimax_eq. cbv zeta.
  destruct (negb (checkmate (pos s) =? 0)).
  { split; [done|]. unfold INF. case_decide; lia. }
  destruct (negb (board_empty (pos s))).
  { split; [done|]. unfold INF. lia. }
  destruct (depth =? 0).
  { split; [done|]. pose proof (eval_bound (pos s) (proj2 Hwf)).
    unfold INF. case_decide; lia. }
  set (p := pos s) in *. set (ml := move_generate p mlist_uninit).
  apply (for_loop_post (λ _ acc s', pos s' = p ∧ - INF ≤ acc ≤ INF)).
  { split; [done|]. unfold INF. case_decide; lia. }
  intros k acc s1 Hk [Hp Hacc]. unfold post. rewrite minimax_body_eq. cbv zeta.
  destruct (generated_candidate p k Hwf ltac:(fold ml; lia)) as (_ & Hr & He).
  fold ml in Hr, He. set (m := move ml !!! k) in *.
  pose proof (IH (depth - 1) (mk_state (move_do (pos s1) m) (nodecount s1))
                 ltac:(by apply move_do_wf; rewrite Hp)) as Hrec.
  unfold post in Hrec.
  destruct (minimax fuel (depth - 1) _) as [v s2| |]; [|done..].
  destruct Hrec as [Hp2 Hv]. cbn [pos] in *. rewrite Hp2, Hp.
  rewrite (move_undo_move_do p m (proj2 Hwf) He).
  split; [done|]. case_decide; [by apply MAX_bounds | by apply MIN_bounds].
Qed.

(** ** Termination of [minimax] *)

(** On the depth alone, for any position: [depth + 1] frames are enough. *)
Lemma minimax_halts_by_depth fuel : ∀ depth s,
  0 ≤ depth < Z.of_nat fuel → wp (minimax fuel depth) s (λ _ _, True).
Proof.
  induction fuel as [|fuel IH]; intros depth s Hd; [lia|].
  unfold wp. rewrite minimax_eq. cbv zeta.
  destruct (negb (checkmate (pos s) =? 0)); [done|].
  destruct (negb (board_empty (pos s))); [done|].
  destruct (Z.eqb_spec depth 0) as [|Hne]; [done|].
  apply (for_loop_wp (λ _ _ _, True)); [done|].
  intros k acc s1 _ _. unfold wp. rewrite minimax_body_eq. cbv zeta.
  pose proof (IH (depth - 1)
                 (mk_state (move_do (pos s1) (move (move_generate (pos s) mlist_uninit) !!! k))
                           (nodecount s1)) ltac:(lia)) as Hrec.
  unfold wp in Hrec. by destruct (minimax fuel (depth - 1) _).
Qed.

Lemma minimax_halts_by_board fuel : ∀ depth s,
  wf_pos (pos s) → (count_piece EMPTY (pos s) < fuel)%nat →
  wp (minimax fuel depth) s (λ _ s', pos s' = pos s).
Proof.
  induction fuel as [|fuel IH]; intros depth s Hwf Hc; [lia|].
  unfold wp. rewrite minimax_eq. cbv zeta.
  destruct (negb (checkmate (pos s) =? 0)); [done|].
  destruct (negb (board_empty (pos s))); [done|].
  destruct (depth =? 0); [done|].
  set (p := pos s) in *. set (ml := move_generate p mlist_uninit).
  apply (for_loop_wp (λ _ _ s', pos s' = p)); [done|].
  intros k acc s1 Hk Hp. unfold wp. rewrite minimax_body_eq. cbv zeta.
  destruct (generated_candidate p k Hwf ltac:(fold ml; lia)) as (_ & Hr & He).
  fold ml in Hr, He. set (m := move ml !!! k) in *.
  pose proof (count_empty_move_do p m He (proj2 Hwf)) as Hcnt.
  pose proof (IH (depth - 1) (mk_state (move_do (pos s1) m) (nodecount s1))
                 ltac:(by apply move_do_wf; rewrite Hp)
                 ltac:(cbn [pos]; rewrite Hp; lia)) as Hrec.
  unfold wp in Hrec.
  destruct (minimax fuel (depth - 1) _) as [v s2| |]; [|done..].
  cbn [pos] in *. rewrite Hrec, Hp.
  by rewrite (move_undo_move_do p m (proj2 Hwf) He).
Qed.

Lemma minimax_total fuel depth s :
  wf_pos (pos s) → enough_fuel fuel depth (pos s) →
  wp (minimax fuel depth) s (λ v s', pos s' = pos s ∧ - INF ≤ v ≤ INF).
Proof.
  intros Hwf Hf. pose proof (minimax_sound fuel depth s Hwf) as Hs.
  assert (wp (minimax fuel depth) s (λ _ _, True)) as Ht.
  { destruct Hf as [Hd|Hb].
    - by apply minimax_halts_by_depth.
    - pose proof (minimax_halts_by_board fuel depth s Hwf Hb) as H.
      unfold wp in *. by destruct (minimax fuel depth s). }
  unfold wp, post in *. by destruct (minimax fuel depth s).
Qed.

(** ** The node counter and the fuel do not influence the score *)

Lemma for_loop_same {S} idx (body : nat → S → M S) :
  (∀ i acc s1 s2, pos s1 = pos s2 → same_result (body i acc s1) (body i acc s2)) →
  ∀ acc s1 s2, pos s1 = pos s2 →
  same_result (for_loop idx body acc s1) (for_loop idx body acc s2).
Proof.
  intros Hbody. induction idx as [|i idx IH]; intros acc s1 s2 Hp; [done|].
  rewrite !for_loop_cons. pose proof (Hbody i acc s1 s2 Hp) as Hb.
  destruct (body i acc s1), (body i acc s2); try done.
  destruct Hb as [-> Hp']. by apply IH.
Qed.

Lemma minimax_nodecount fuel : ∀ depth s1 s2,
  pos s1 = pos s2 →
  same_result (minimax fuel depth s1) (minimax fuel depth s2).
Proof.
  induction fuel as [|fuel IH]; intros depth s1 s2 Hp; [done|].
  rewrite !minimax_eq. cbv zeta. rewrite <- Hp.
  destruct (negb (checkmate (pos s1) =? 0)); [done|].
  destruct (negb (board_empty (pos s1))); [done|].
  destruct (depth =? 0); [done|].
  apply for_loop_same; [|done].
  intros i acc t1 t2 Ht. rewrite !minimax_body_eq. cbv zeta. rewrite <- Ht.
  pose proof (IH (depth - 1)
    (mk_state (move_do (pos t1) (move (move_generate (pos s1) mlist_uninit) !!! i)) (nodecount t1))
    (mk_state (move_do (pos t1) (move (move_generate (pos s1) mlist_uninit) !!! i)) (nodecount t2))
    eq_refl) as Hrec.
  destruct (minimax fuel (depth - 1) _) as [v1 u1| |],
           (minimax fuel (depth - 1) _) as [v2 u2| |]; try done.
  destruct Hrec as [-> Hu]. cbn [same_result pos]. by rewrite Hu.
Qed.

Lemma for_loop_ok_mono {S} idx (body1 body2 : nat → S → M S) :
  (∀ i acc s r s', body1 i acc s = Ok r s' → body2 i acc s = Ok r s') →
  ∀ acc s r s', for_loop idx body1 acc s = Ok r s' →
                for_loop idx body2 acc s = Ok r s'.
Proof.
  intros Hbody. induction idx as [|i idx IH]; intros acc s r s'; [done|].
  rewrite !for_loop_cons.
  destruct (body1 i acc s) as [a1 t1| |] eqn:E1; [|done..].
  rewrite (Hbody _ _ _ _ _ E1). apply IH.
Qed.

Lemma minimax_fuel_S fuel : ∀ depth s v s',
  minimax fuel depth s = Ok v s' → minimax (S fuel) depth s = Ok v s'.
Proof.
  induction fuel as [|fuel IH]; intros depth s v s'; [done|].
  rewrite (minimax_eq (S fuel)), (minimax_eq fuel). cbv zeta.
  destruct (negb (checkmate (pos s) =? 0)); [done|].
  destruct (negb (board_empty (pos s))); [done|].
  destruct (depth =? 0); [done|].
  apply for_loop_ok_mono. intros i acc t r t'. rewrite !minimax_body_eq. cbv zeta.
  destruct (minimax fuel (depth - 1) _) as [v1 u1| |] eqn:E; [|done..].
  by rewrite (IH _ _ _ _ E).
Qed.

Lemma minimax_fuel_le fuel fuel' depth s v s' :
  (fuel ≤ fuel')%nat →
  minimax fuel depth s = Ok v s' → minimax fuel' depth s = Ok v s'.
Proof.
  induction 1 as [|fuel' _ IH]; [done|].
  intros H. by apply minimax_fuel_S, IH.
Qed.

Lemma minimax_score_eq fuel depth s v s' :
  minimax fuel depth s = Ok v s' → minimax_score fuel depth (pos s) = v.
Proof.
  intros H. unfold minimax_score.
  pose proof (minimax_nodecount fuel depth s (mk_state (pos s) 0) eq_refl) as Hs.
  rewrite H in Hs. destruct (minimax fuel depth (mk_state (pos s) 0)); [|done..].
  by destruct Hs as [-> _].
Qed.

(** ** The score at the search horizon *)

(** C1, as stated, fails: with WHITE on 0 and 1, BLACK on 3 and 4 and WHITE to
    move, the heuristic is 1 and [minimax] at depth 0 returns -1. *)
Lemma horizon_sign_white_positive_fails : ¬ horizon_sign_white_positive.
Proof.
  intros H.
  destruct (H (mk_pos [WHITE; WHITE; EMPTY; BLACK; BLACK; EMPTY; EMPTY; EMPTY; EMPTY] WHITE)
              0 0%nat) as [s' Hs'].
  - split; [reflexivity | discriminate].
  - reflexivity.
  - reflexivity.
  - vm_compute in Hs'. discriminate Hs'.
Qed.

Lemma minimax_depth_0 p n fuel :
  checkmate p = 0 → board_empty p = true →
  minimax (S fuel) 0 (mk_state p n)
  = Ok (if decide (color p = WHITE) then - eval p else eval p)
       (mk_state p ((n + 1) mod 2 ^ 32)).
Proof.
  intros Hwon Hfull. rewrite minimax_eq. cbn [pos nodecount].
  by rewrite Hwon, Hfull.
Qed.

(** C1, amended: for every position that is neither won nor full,
    [minimax] at depth 0 returns [- eval] when WHITE is to move and [eval]
    when BLACK is to move, [eval] being computed for the side to move; the
    position is left as it was and one node is counted. *)
Theorem minimax_horizon (p : board_pos) (n : Z) (fuel : nat) :
  wf_pos p → checkmate p = 0 → board_empty p = true →
  minimax (S fuel) 0 (mk_state p n)
  = Ok (if decide (color p = WHITE) then - eval p else eval p)
       (mk_state p ((n + 1) mod 2 ^ 32)).
Proof.
  intros _ Hwon Hfull. by apply minimax_depth_0.
Qed.

Lemma minimax_horizon_witness :
  minimax 1 0
    (mk_state (mk_pos [WHITE; WHITE; EMPTY; BLACK; BLACK; EMPTY; EMPTY; EMPTY; EMPTY] WHITE) 0)
  = Ok (-1)
       (mk_state (mk_pos [WHITE; WHITE; EMPTY; BLACK; BLACK; EMPTY; EMPTY; EMPTY; EMPTY] WHITE) 1).
Proof.
  apply (minimax_horizon
           (mk_pos [WHITE; WHITE; EMPTY; BLACK; BLACK; EMPTY; EMPTY; EMPTY; EMPTY] WHITE)
           0 0).
  - split; [reflexivity | discriminate].
  - reflexivity.
  - reflexivity.
Defined.

(** ** Score bounds *)

(** C9: the heuristic is at most 8 in absolute value, below [INF] = 100; so
    a score returned at the horizon is never one of the sentinels [INF] and
    [- INF], and every value [minimax] returns lies in [-100, 100]. *)
Theorem eval_minimax_bounds (p : board_pos) :
  wf_pos p →
  Z.abs (eval p) ≤ 8 ∧ 8 < INF ∧ INF = 100 ∧
  (∀ fuel n v s',
     checkmate p = 0 → board_empty p = true →
     minimax fuel 0 (mk_state p n) = Ok v s' → v ≠ INF ∧ v ≠ - INF) ∧
  (∀ fuel depth n v s',
     minimax fuel depth (mk_state p n) = Ok v s' → -100 ≤ v ≤ 100).
Proof.
  intros Hwf. pose proof (eval_bound p (proj2 Hwf)) as He.
  split_and!; [lia | done | done | |].
  - intros [|fuel] n v s' Hwon Hfull; [done|].
    rewrite minimax_depth_0 by done. intros [= <- _].
    unfold INF. case_decide; lia.
  - intros fuel depth n v s' H.
    pose proof (minimax_sound fuel depth (mk_state p n) Hwf) as Hs.
    unfold post in Hs. rewrite H in Hs. unfold INF in Hs. lia.
Qed.

Lemma eval_minimax_bounds_witness :
  let p := mk_pos [WHITE; WHITE; EMPTY; BLACK; BLACK; EMPTY; EMPTY; EMPTY; EMPTY] WHITE in
  Z.abs (eval p) ≤ 8 ∧ 8 < INF ∧ INF = 100 ∧
  (∀ fuel n v s',
     checkmate p = 0 → board_empty p = true →
     minimax fuel 0 (mk_state p n) = Ok v s' → v ≠ INF ∧ v ≠ - INF) ∧
  (∀ fuel depth n v s',
     minimax fuel depth (mk_state p n) = Ok v s' → -100 ≤ v ≤ 100).
Proof.
  apply eval_minimax_bounds. split; [reflexivity | discriminate].
Defined.

(** ** Termination *)

(** C10: for every position and every depth >= 0, [minimax] returns: a won
    position, a full board and depth 0 are answered within the first frame,
    every other call runs its loop over recursive calls at [depth - 1], and
    [depth + 1] frames are enough for the whole recursion. *)
Theorem minimax_terminates (p : board_pos) (n depth : Z) :
  0 ≤ depth →
  (∀ fuel, (Z.to_nat depth < fuel)%nat →
           ∃ v s', minimax fuel depth (mk_state p n) = Ok v s') ∧
  (checkmate p ≠ 0 ∨ board_empty p = false ∨ depth = 0 →
   ∃ v s', minimax 1 depth (mk_state p n) = Ok v s') ∧
  (checkmate p = 0 → board_empty p = true → depth ≠ 0 →
   ∀ fuel, minimax (S fuel) depth (mk_state p n)
           = for_loop (seq 0 (moves (move_generate p mlist_uninit)))
               (minimax_body (minimax fuel (depth - 1))
                             (move_generate p mlist_uninit))
               (if decide (color p = WHITE) then - INF else INF)
               (mk_state p ((n + 1) mod 2 ^ 32))).
Proof.
  intros Hd. split_and!.
  - intros fuel Hf.
    pose proof (minimax_halts_by_depth fuel depth (mk_state p n) ltac:(lia)) as H.
    apply wp_inv in H as (v & s' & H & _). eauto.
  - intros Hbase. rewrite minimax_eq. cbn [pos nodecount].
    destruct (Z.eqb_spec (checkmate p) 0) as [Hw|Hw]; simpl; [|eauto].
    destruct (board_empty p) eqn:Hb; simpl; [|eauto].
    destruct (Z.eqb_spec depth 0) as [Hz|Hz]; [eauto|].
    by destruct Hbase as [|[|]].
  - intros Hw Hb Hz fuel. rewrite minimax_eq. cbn [pos nodecount].
    rewrite Hw, Hb. simpl. by destruct (Z.eqb_spec depth 0).
Qed.

Lemma minimax_terminates_witness :
  ∃ v s', minimax 4 3 (mk_state start_pos 0) = Ok v s'.
Proof.
  apply (proj1 (minimax_terminates start_pos 0 3 ltac:(lia)) 4%nat). simpl; lia.
Defined.


(** ** The loop of [minimax] as a fold over the candidate moves *)

Lemma enough_fuel_child fuel depth p m :
  color p ≠ EMPTY → sq p !! Z.to_nat m = Some EMPTY → depth ≠ 0 →
  enough_fuel (S fuel) depth p → enough_fuel fuel (depth - 1) (move_do p m).
Proof.
  intros Hc Hm Hd [Hf|Hf]; [left; lia|right].
  pose proof (count_empty_move_do p m Hm Hc). lia.
Qed.

Lemma minimax_loop fuel depth p n init :
  wf_pos p → depth ≠ 0 → enough_fuel (S fuel) depth p →
  let ml := move_generate p mlist_uninit in
  wp (for_loop (seq 0 (moves ml)) (minimax_body (minimax fuel (depth - 1)) ml) init)
     (mk_state p n)
     (λ v s', pos s' = p ∧
              v = fold_scores (color p)
                    (λ m, minimax_score fuel (depth - 1) (move_do p m))
                    (generated ml) init).
Proof.
  intros Hwf Hd Hf ml.
  set (child := λ m, minimax_score fuel (depth - 1) (move_do p m)).
  pose proof (for_loop_wp
    (λ k acc s', pos s' = p ∧
                 acc = fold_scores (color p) child (take k (generated ml)) init)
    (minimax_body (minimax fuel (depth - 1)) ml) 0 (moves ml) init (mk_state p n)) as Hloop.
  cbn beta in Hloop. rewrite Nat.add_0_l in Hloop.
  assert (take (moves ml) (generated ml) = generated ml) as Htake.
  { unfold generated. rewrite take_take. f_equal. lia. }
  rewrite Htake in Hloop. apply Hloop; clear Hloop; [done|].
  intros k acc s1 Hk [Hp ->]. unfold wp. rewrite minimax_body_eq. cbv zeta.
  destruct (generated_candidate p k Hwf ltac:(fold ml; lia)) as (Hg & Hr & He).
  fold ml in Hg, Hr, He. set (m := move ml !!! k) in *.
  pose proof (minimax_total fuel (depth - 1)
                (mk_state (move_do (pos s1) m) (nodecount s1))
                ltac:(by apply move_do_wf; rewrite Hp)
                ltac:(cbn [pos]; rewrite Hp;
                      by apply enough_fuel_child; [apply Hwf| | |])) as Hrec.
  unfold wp in Hrec.
  destruct (minimax fuel (depth - 1) _) as [v s2| |] eqn:E; [|done..].
  destruct Hrec as [Hp2 _]. apply minimax_score_eq in E.
  cbn [pos] in *. rewrite Hp in *. rewrite Hp2.
  rewrite (move_undo_move_do p m (proj2 Hwf) He). split; [done|].
  rewrite (take_S_r _ _ _ Hg). unfold fold_scores. rewrite fold_left_app.
  cbn [fold_left]. unfold child. by rewrite E.
Qed.

(** One call of [minimax], as a function of the position alone. *)
Lemma minimax_score_step fuel depth p :
  wf_pos p → enough_fuel (S fuel) depth p →
  minimax_score (S fuel) depth p =
  if negb (checkmate p =? 0) then
    if decide (color p = WHITE) then - INF else INF
  else if negb (board_empty p) then 0
  else if depth =? 0 then
    if decide (color p = WHITE) then - eval p else eval p
  else
    fold_scores (color p) (λ m, minimax_score fuel (depth - 1) (move_do p m))
      (generated (move_generate p mlist_uninit))
      (if decide (color p = WHITE) then - INF else INF).
Proof.
  intros Hwf Hf. unfold minimax_score at 1. rewrite minimax_eq. cbv zeta.
  cbn [pos nodecount].
  destruct (negb (checkmate p =? 0)); [done|].
  destruct (negb (board_empty p)); [done|].
  destruct (Z.eqb_spec depth 0) as [Hd|Hd]; [done|].
  pose proof (minimax_loop fuel depth p ((0 + 1) mod 2 ^ 32)
                (if decide (color p = WHITE) then - INF else INF) Hwf Hd Hf) as H.
  apply wp_inv in H as (v & s' & -> & _ & ->). done.
Qed.

Lemma minimax_returns fuel depth p n :
  wf_pos p → enough_fuel fuel depth p →
  ∃ n', minimax fuel depth (mk_state p n)
        = Ok (minimax_score fuel depth p) (mk_state p n').
Proof.
  intros Hwf Hf.
  pose proof (minimax_total fuel depth (mk_state p n) Hwf Hf) as H.
  apply wp_inv in H as (v & [q n'] & H & Hq & _). cbn [pos] in Hq. subst q.
  exists n'. rewrite H. f_equal. symmetry.
  by apply (minimax_score_eq _ _ _ _ _ H).
Qed.

Lemma minimax_score_fuel_le fuel fuel' depth p :
  wf_pos p → enough_fuel fuel depth p → (fuel ≤ fuel')%nat →
  minimax_score fuel' depth p = minimax_score fuel depth p.
Proof.
  intros Hwf Hf Hle. destruct (minimax_returns fuel depth p 0 Hwf Hf) as [n' H].
  apply (minimax_fuel_le _ fuel') in H; [|done].
  by apply (minimax_score_eq _ _ _ _ _ H).
Qed.

(** ** Exhaustive search, computed with a transposition table *)

Lemma board_empty_from_spec sqs idx :
  board_empty_from sqs idx = true ↔ ∃ i, i ∈ idx ∧ sqs !!! i = EMPTY.
Proof.
  induction idx as [|i idx IH]; simpl.
  - split; [done|]. by intros (i & Hi%elem_of_nil & _).
  - case_decide as He.
    + split; [|done]. intros _. exists i. split; [left|done].
    + rewrite IH. split.
      * intros (j & Hj & Hej). exists j. split; [by right|done].
      * intros (j & [->|Hj]%elem_of_cons & Hej); [done|eauto].
Qed.

Lemma board_empty_count p :
  length (sq p) = SQUARES_MAX →
  board_empty p = true → (0 < count_piece EMPTY p)%nat.
Proof.
  intros Hlen (i & Hi & He)%board_empty_from_spec.
  rewrite <- length_empty_squares by done.
  assert (i ∈ empty_squares p (seq 0 SQUARES_MAX)) as Hin
    by by apply list_elem_of_filter.
  destruct (empty_squares p (seq 0 SQUARES_MAX)); [by apply elem_of_nil in Hin|].
  simpl. lia.
Qed.

Lemma count_empty_le p :
  length (sq p) = SQUARES_MAX → (count_piece EMPTY p ≤ 9)%nat.
Proof.
  intros Hlen. unfold count_piece.
  pose proof (length_filter (λ x, x = EMPTY) (sq p)) as H.
  rewrite Hlen in H. done.
Qed.

Lemma fold_scores_ext c child1 child2 cands init :
  (∀ m, m ∈ cands → child1 m = child2 m) →
  fold_scores c child1 cands init = fold_scores c child2 cands init.
Proof.
  unfold fold_scores. revert init.
  induction cands as [|m cands IH]; intros init Hext; [done|].
  cbn [fold_left]. rewrite (Hext m) by left. apply IH.
  intros m' Hm'. apply Hext. by right.
Qed.

Lemma full_score_step p :
  wf_pos p →
  full_score p =
  if negb (checkmate p =? 0) then
    if decide (color p = WHITE) then - INF else INF
  else if negb (board_empty p) then 0
  else
    fold_scores (color p) (λ m, full_score (move_do p m))
      (generated (move_generate p mlist_uninit))
      (if decide (color p = WHITE) then - INF else INF).
Proof.
  intros Hwf. pose proof (count_empty_le p (proj1 Hwf)) as Hle.
  unfold full_score at 1. rewrite minimax_score_step by (done || right; lia).
  destruct (negb (checkmate p =? 0)); [done|].
  destruct (board_empty p) eqn:Hb; [|done]. cbn [negb].
  pose proof (board_empty_count p (proj1 Hwf) Hb) as Hpos.
  destruct (Z.eqb_spec (Z.of_nat (count_piece EMPTY p)) 0) as [|_]; [lia|].
  apply fold_scores_ext. intros m Hm.
  apply elem_of_generated in Hm as [Hr He]; [|done].
  assert (sq p !! Z.to_nat m = Some EMPTY) as Hl.
  { rewrite <- He. apply lookup_total_Some. destruct Hwf as [-> _]. lia. }
  pose proof (count_empty_move_do p m Hl (proj2 Hwf)) as Hc.
  unfold full_score.
  replace (Z.of_nat (count_piece EMPTY (move_do p m)))
    with (Z.of_nat (count_piece EMPTY p) - 1) by lia.
  symmetry. apply minimax_score_fuel_le; [by apply move_do_wf | right; lia | lia].
Qed.

Lemma key_inj p q : key p = key q → p = q.
Proof. destruct p, q. unfold key; simpl. by intros [= -> ->]. Qed.

Lemma memo_ok_insert p t :
  memo_ok t → memo_ok (<[ key p := full_score p ]> t).
Proof.
  intros Ht q v Hq. destruct (decide (key p = key q)) as [Heq|Hne].
  - rewrite Heq, lookup_insert_eq. apply key_inj in Heq as ->. by intros [= <-].
  - rewrite lookup_insert_ne by done. by apply Ht.
Qed.

Lemma memo_fold_ok (search : board_pos → memo → Z * memo) p cands :
  (∀ m t, m ∈ cands → memo_ok t →
          (search (move_do p m) t).1 = full_score (move_do p m) ∧
          memo_ok (search (move_do p m) t).2) →
  ∀ acc t, memo_ok t →
    (fold_left (memo_step search p) cands (acc, t)).1
    = fold_scores (color p) (λ m, full_score (move_do p m)) cands acc ∧
    memo_ok (fold_left (memo_step search p) cands (acc, t)).2.
Proof.
  unfold fold_scores.
  induction cands as [|m cands IH]; intros Hs acc t Ht; [done|].
  cbn [fold_left]. destruct (Hs m t ltac:(left) Ht) as [Hv Ht'].
  unfold memo_step at 2 4. cbn [fst snd]. rewrite Hv.
  apply IH; [|done]. intros m' t' Hm'. apply Hs. by right.
Qed.

Lemma memo_search_ok fuel : ∀ p t,
  wf_pos p → (count_piece EMPTY p < fuel)%nat → memo_ok t →
  (memo_search fuel p t).1 = full_score p ∧ memo_ok (memo_search fuel p t).2.
Proof.
  induction fuel as [|fuel IH]; intros p t Hwf Hc Ht; [lia|].
  cbn [memo_search]. destruct (t !! key p) as [v|] eqn:Hlk.
  { split; [|done]. symmetry. by apply Ht. }
  set (r := if negb (checkmate p =? 0) then _ else _).
  assert (r.1 = full_score p ∧ memo_ok r.2) as [Hv Ht'].
  { unfold r. rewrite (full_score_step p Hwf).
    destruct (negb (checkmate p =? 0)); [done|].
    destruct (negb (board_empty p)); [done|].
    apply memo_fold_ok; [|done].
    intros m t' Hm Hok. apply elem_of_generated in Hm as [Hr He]; [|done].
    assert (sq p !! Z.to_nat m = Some EMPTY) as Hl.
    { rewrite <- He. apply lookup_total_Some. destruct Hwf as [-> _]. lia. }
    pose proof (count_empty_move_do p m Hl (proj2 Hwf)).
    apply IH; [by apply move_do_wf | lia | done]. }
  cbn [fst snd]. rewrite Hv. split; [done|]. by apply memo_ok_insert.
Qed.

Lemma memo_ok_empty : memo_ok ∅.
Proof. intros p v _. by rewrite lookup_empty. Qed.

Lemma start_pos_wf : wf_pos start_pos.
Proof. split; [reflexivity | discriminate]. Qed.

Lemma memo_search_start : (memo_search 10 start_pos ∅).1 = 0.
Proof. vm_compute. reflexivity. Qed.

Lemma full_score_eq p d :
  Z.of_nat (count_piece EMPTY p) = d → full_score p = minimax_score 10 d p.
Proof. by intros <-. Qed.

Lemma count_empty_start : Z.of_nat (count_piece EMPTY start_pos) = 9.
Proof. reflexivity. Qed.

Lemma full_score_start : full_score start_pos = 0.
Proof.
  destruct (memo_search_ok 10 start_pos ∅ start_pos_wf) as [H _].
  - apply Nat.lt_succ_r, count_empty_le. reflexivity.
  - apply memo_ok_empty.
  - rewrite <- H. exact memo_search_start.
Qed.

(** ** Perfect play from the empty board *)

(** C2: [minimax] on the all-empty starting position with depth 9 returns 0
    and leaves the position as it was, whatever the node counter was and
    with any fuel of at least ten frames. *)
Theorem minimax_start_pos_draw (extra : nat) (n : Z) :
  ∃ n', minimax (10 + extra) 9 (mk_state start_pos n)
        = Ok 0 (mk_state start_pos n').
Proof.
  assert (enough_fuel (10 + extra) 9 start_pos) as Hf by (left; lia).
  assert (enough_fuel 10 9 start_pos) as Hf10 by (left; lia).
  destruct (minimax_returns (10 + extra) 9 start_pos n start_pos_wf Hf) as [n' H].
  exists n'.
  rewrite (minimax_score_fuel_le 10 (10 + extra) 9 start_pos start_pos_wf Hf10) in H
    by lia.
  rewrite <- (full_score_eq start_pos 9 count_empty_start) in H.
  rewrite full_score_start in H. exact H.
Qed.

(** ** The loop of [move_pick] as a fold over the candidate moves *)

Lemma enough_fuel_move_do fuel depth p m :
  color p ≠ EMPTY → sq p !! Z.to_nat m = Some EMPTY →
  enough_fuel fuel depth p → enough_fuel fuel depth (move_do p m).
Proof.
  intros Hc Hm [Hf|Hf]; [by left|right].
  pose proof (count_empty_move_do p m Hm Hc). lia.
Qed.

Lemma move_pick_loop fuel depth p n acc0 :
  wf_pos p → enough_fuel fuel depth p →
  let ml := move_generate p mlist_uninit in
  wp (for_loop (seq 0 (moves ml)) (move_pick_body (minimax fuel depth) ml) acc0)
     (mk_state p n)
     (λ acc s', pos s' = p ∧
                acc = fold_left
                        (pick_step (color p)
                           (λ m, minimax_score fuel depth (move_do p m)))
                        (generated ml) acc0).
Proof.
  intros Hwf Hf ml.
  set (score := λ m, minimax_score fuel depth (move_do p m)).
  pose proof (for_loop_wp
    (λ k acc s', pos s' = p ∧
                 acc = fold_left (pick_step (color p) score)
                         (take k (generated ml)) acc0)
    (move_pick_body (minimax fuel depth) ml) 0 (moves ml) acc0 (mk_state p n)) as Hloop.
  cbn beta in Hloop. rewrite Nat.add_0_l in Hloop.
  assert (take (moves ml) (generated ml) = generated ml) as Htake.
  { unfold generated. rewrite take_take. f_equal. lia. }
  rewrite Htake in Hloop. apply Hloop; clear Hloop; [done|].
  intros k acc s1 Hk [Hp ->]. unfold wp. rewrite move_pick_body_eq. cbv zeta.
  destruct (generated_candidate p k Hwf ltac:(fold ml; lia)) as (Hg & Hr & He).
  fold ml in Hg, Hr, He. set (m := move ml !!! k) in *.
  pose proof (minimax_total fuel depth
                (mk_state (move_do (pos s1) m) (nodecount s1))
                ltac:(by apply move_do_wf; rewrite Hp)
                ltac:(cbn [pos]; rewrite Hp;
                      by apply enough_fuel_move_do; [apply Hwf| |])) as Hrec.
  unfold wp in Hrec.
  destruct (minimax fuel depth _) as [v s2| |] eqn:E; [|done..].
  destruct Hrec as [Hp2 _]. apply minimax_score_eq in E.
  cbn [pos] in *. rewrite Hp in *. rewrite Hp2.
  rewrite (move_undo_move_do p m (proj2 Hwf) He). split; [done|].
  rewrite (take_S_r _ _ _ Hg), fold_left_app.
  cbn [fold_left]. subst v. reflexivity.
Qed.

(** What the fold of [pick_step] arrives at: nothing is better than the
    final score, and either no candidate improved on the initial
    accumulator, which is returned unchanged, or the result is the first
    candidate with the best score. *)
Lemma pick_fold_spec c score cands : ∀ acc,
  let r := fold_left (pick_step c score) cands acc in
  ¬ better c acc.2 r.2 ∧
  (∀ m, m ∈ cands → ¬ better c (score m) r.2) ∧
  ((r = acc ∧ ∀ m, m ∈ cands → ¬ better c (score m) acc.2) ∨
   (∃ j m, cands !! j = Some m ∧ r = (m, score m) ∧
           better c (score m) acc.2 ∧
           ∀ i m', (i < j)%nat → cands !! i = Some m' →
                   better c (score m) (score m'))).
Proof.
  induction cands as [|m cands IH]; intros acc r.
  - unfold r, better. simpl. split_and!; [case_decide; lia| |].
    + by intros m Hm%elem_of_nil.
    + left. split; [done|]. by intros m Hm%elem_of_nil.
  - unfold r. cbn [fold_left]. clear r.
    specialize (IH (pick_step c score acc m)).
    destruct IH as (Hacc & Hall & Hcase).
    set (r := fold_left (pick_step c score) cands (pick_step c score acc m)) in *.
    assert (pick_step c score acc m = acc ∧ ¬ better c (score m) acc.2 ∨
            pick_step c score acc m = (m, score m) ∧ better c (score m) acc.2)
      as [[Hstep Hnb]|[Hstep Hb]].
    { unfold pick_step, better. case_decide.
      - destruct (Z.gtb_spec (score m) acc.2); [right|left]; split; (done || lia).
      - destruct (Z.ltb_spec (score m) acc.2); [right|left]; split; (done || lia). }
    + rewrite Hstep in *. split_and!; [done| |].
      * intros m' [->|Hm']%elem_of_cons; [|by apply Hall].
        revert Hnb Hacc. unfold better. case_decide; lia.
      * destruct Hcase as [[Hr Hno]|(j & m' & Hj & Hr & Hb & Hbefore)].
        -- left. split; [done|].
           intros m' [->|Hm']%elem_of_cons; [done|by apply Hno].
        -- right. exists (S j), m'. split_and!; [done..|].
           intros [|i] m'' Hi Hlk; simplify_eq/=.
           ++ revert Hnb Hb. unfold better. case_decide; lia.
           ++ apply (Hbefore i); [lia|done].
    + rewrite Hstep in *. cbn [snd] in *. split_and!.
      * revert Hb Hacc. unfold better. case_decide; lia.
      * intros m' [->|Hm']%elem_of_cons; [done|by apply Hall].
      * right. destruct Hcase as [[Hr Hno]|(j & m' & Hj & Hr & Hb' & Hbefore)].
        -- exists 0%nat, m. split_and!; [done..|]. intros i m' Hi. lia.
        -- exists (S j), m'. split_and!; [done..| |].
           ++ revert Hb Hb'. unfold better. case_decide; lia.
           ++ intros [|i] m'' Hi Hlk; simplify_eq/=; [done|].
              apply (Hbefore i); [lia|done].
Qed.

Lemma pick_fold_elem c score cands acc :
  (fold_left (pick_step c score) cands acc).1 = acc.1 ∨
  (fold_left (pick_step c score) cands acc).1 ∈ cands.
Proof.
  destruct (pick_fold_spec c score cands acc)
    as (_ & _ & [[-> _]|(j & m & Hj & -> & _)]); [by left|right].
  by apply list_elem_of_lookup_2 in Hj.
Qed.

Lemma sorted_lookup_lt (l : list Z) i j a b :
  StronglySorted Z.lt l → l !! i = Some a → l !! j = Some b →
  (i < j)%nat → a < b.
Proof.
  intros Hs. revert i j. induction Hs as [|x l Hs IH Hall]; intros i j Hi Hj Hlt.
  - done.
  - destruct j as [|j]; [lia|]. destruct i as [|i]; simplify_eq/=.
    + rewrite Forall_forall in Hall. apply Hall.
      by apply list_elem_of_lookup_2 in Hj.
    + apply (IH i j); [done..|lia].
Qed.

(** ** Move selection *)

Lemma move_pick_unfold fuel depth s :
  move_pick fuel depth s =
  let p := pos s in
  let ml := move_generate p mlist_uninit in
  match for_loop (seq 0 (moves ml)) (move_pick_body (minimax fuel depth) ml)
          (move ml !!! 0%nat, if decide (color p = WHITE) then - INF else INF)
          (mk_state p 0) with
  | Ok acc s' =>
      if acc.1 <? Z.of_nat SQUARES_MAX then
        if bool_decide (sq (pos s') !!! Z.to_nat acc.1 = EMPTY)
        then Ok acc.1 s' else AssertFail
      else AssertFail
  | AssertFail => AssertFail
  | OutOfFuel => OutOfFuel
  end.
Proof.
  unfold move_pick, set_nodecount, get_pos, assert, mbind, M_bind, mret, M_ret.
  cbn [pos nodecount]. destruct (for_loop _ _ _ _) as [acc s'| |]; [|done..].
  destruct (acc.1 <? Z.of_nat SQUARES_MAX); [|done].
  by destruct (bool_decide _).
Qed.

Lemma moves_positive p :
  wf_pos p → board_empty p = true →
  (0 < moves (move_generate p mlist_uninit))%nat.
Proof.
  intros [Hlen _] Hb.
  destruct (move_generate_generated p mlist_uninit eq_refl) as (_ & -> & _).
  rewrite length_empty_squares by done. by apply board_empty_count.
Qed.

(** [move_pick] returns the move the fold of [pick_step] arrives at; both
    assertions hold, and the position is left as it was. *)
Lemma move_pick_eq fuel depth p n :
  wf_pos p → board_empty p = true → enough_fuel fuel depth p →
  let ml := move_generate p mlist_uninit in
  let r := fold_left
             (pick_step (color p) (λ m, minimax_score fuel depth (move_do p m)))
             (generated ml)
             (move ml !!! 0%nat, if decide (color p = WHITE) then - INF else INF) in
  r.1 ∈ generated ml ∧
  ∃ n', move_pick fuel depth (mk_state p n) = Ok r.1 (mk_state p n').
Proof.
  intros Hwf Hb Hf ml r.
  pose proof (moves_positive p Hwf Hb) as Hpos. fold ml in Hpos.
  destruct (generated_candidate p 0 Hwf Hpos) as (Hg0 & _).
  fold ml in Hg0.
  assert (r.1 ∈ generated ml) as Hin.
  { destruct (pick_fold_elem (color p)
                (λ m, minimax_score fuel depth (move_do p m)) (generated ml)
                (move ml !!! 0%nat, if decide (color p = WHITE) then - INF else INF))
      as [Heq|Hin]; [|done].
    fold r in Heq. rewrite Heq. cbn [fst]. by apply list_elem_of_lookup_2 in Hg0. }
  split; [done|]. rewrite move_pick_unfold. cbv zeta. cbn [pos].
  pose proof (move_pick_loop fuel depth p 0
                (move ml !!! 0%nat, if decide (color p = WHITE) then - INF else INF)
                Hwf Hf) as Hloop.
  apply wp_inv in Hloop as (acc & [q n'] & E & Hq & Hacc).
  cbn [pos] in *. subst q. fold ml in Hacc. fold r in Hacc. subst acc.
  unfold ml in E |- *. rewrite E. cbn [pos].
  apply elem_of_generated in Hin as [Hr He]; [|done].
  destruct (Z.ltb_spec r.1 (Z.of_nat SQUARES_MAX)); [|lia].
  rewrite bool_decide_eq_true_2 by done. by exists n'.
Qed.

Lemma minimax_score_bounds fuel depth p :
  wf_pos p → - INF ≤ minimax_score fuel depth p ≤ INF.
Proof.
  intros Hwf. unfold minimax_score.
  pose proof (minimax_sound fuel depth (mk_state p 0) Hwf) as H.
  unfold post in H. destruct (minimax fuel depth _); unfold INF in *; lia.
Qed.

Lemma enough_fuel_10 fuel depth p :
  wf_pos p → (9 < fuel)%nat → enough_fuel fuel depth p.
Proof. intros [Hlen _] Hf. right. pose proof (count_empty_le p Hlen). lia. Qed.

(** C6: for every position with an empty square and every depth, [move_pick]
    returns, leaving the position as it was, one of the generated candidates
    [m], chosen by strict improvement only.  With [score c] the value
    [minimax] returns on the position after candidate [c]:
    - WHITE to move: either no candidate scores above the initial [- INF]
      and [m] is the first generated candidate, or [m] scores above [- INF],
      no candidate scores higher than [m], and every candidate generated
      before [m] scores strictly lower;
    - BLACK to move: the same with [INF] and the order reversed. *)
Theorem move_pick_first_best (p : board_pos) (depth n : Z) (fuel : nat) :
  wf_pos p → board_empty p = true → (9 < fuel)%nat →
  let cands := generated (move_generate p mlist_uninit) in
  let score := λ c, minimax_score fuel depth (move_do p c) in
  (∀ c n0, c ∈ cands →
     ∃ n1, minimax fuel depth (mk_state (move_do p c) n0)
           = Ok (score c) (mk_state (move_do p c) n1)) ∧
  ∃ m n',
    move_pick fuel depth (mk_state p n) = Ok m (mk_state p n') ∧
    m ∈ cands ∧
    (color p = WHITE →
       (head cands = Some m ∧ ∀ c, c ∈ cands → score c ≤ - INF) ∨
       (- INF < score m ∧
        (∀ c, c ∈ cands → score c ≤ score m) ∧
        (∀ c, c ∈ cands → c < m → score c < score m))) ∧
    (color p = BLACK →
       (head cands = Some m ∧ ∀ c, c ∈ cands → INF ≤ score c) ∨
       (score m < INF ∧
        (∀ c, c ∈ cands → score m ≤ score c) ∧
        (∀ c, c ∈ cands → c < m → score m < score c))).
Proof.
  intros Hwf Hb Hfuel cands score.
  pose proof (enough_fuel_10 fuel depth p Hwf Hfuel) as Hf.
  split.
  { intros c n0 Hc. apply elem_of_generated in Hc as [Hr He]; [|done].
    apply minimax_returns; [by apply move_do_wf|].
    apply enough_fuel_10; [by apply move_do_wf | done]. }
  destruct (move_pick_eq fuel depth p n Hwf Hb Hf) as (Hin & n' & Hrun).
  fold cands in Hin, Hrun. fold score in Hin, Hrun.
  set (m0 := move (move_generate p mlist_uninit) !!! 0%nat) in *.
  set (init := if decide (color p = WHITE) then - INF else INF) in *.
  set (r := fold_left (pick_step (color p) score) cands (m0, init)) in *.
  exists r.1, n'. split; [done|]. split; [done|].
  assert (head cands = Some m0) as Hhead.
  { rewrite head_lookup.
    by destruct (generated_candidate p 0 Hwf (moves_positive p Hwf Hb)) as [? _]. }
  assert (StronglySorted Z.lt cands) as Hsorted.
  { by apply generated_sorted. }
  destruct (pick_fold_spec (color p) score cands (m0, init))
    as (_ & Hall & Hcase). fold r in Hall, Hcase. cbn [snd] in Hcase.
  assert (∃ j, cands !! j = Some r.1 ∧
               (r = (m0, init) ∨
                r = (r.1, score r.1) ∧
                ∀ i c, (i < j)%nat → cands !! i = Some c →
                       better (color p) (score r.1) (score c))) as (j & Hj & Hr).
  { destruct Hcase as [[Hr _]|(j & m & Hj & Hr & _ & Hbefore)].
    - exists 0%nat. rewrite Hr. cbn [fst]. rewrite <- head_lookup. eauto.
    - exists j. rewrite Hr. cbn [fst]. eauto. }
  assert (∀ c, c ∈ cands → c < r.1 →
               ∃ i, (i < j)%nat ∧ cands !! i = Some c) as Hearlier.
  { intros c [i Hi]%list_elem_of_lookup_1 Hlt. exists i. split; [|done].
    destruct (decide (i < j)%nat) as [|Hge]; [done|].
    destruct (decide (i = j)) as [->|Hne]; [simplify_eq; lia|].
    pose proof (sorted_lookup_lt cands j i _ _ Hsorted Hj Hi ltac:(lia)). lia. }
  split; intros Hcol.
  - assert (init = - INF) as Hinit by (unfold init; by rewrite Hcol).
    assert (∀ a b, better (color p) a b ↔ b < a) as Hbet
      by (intros; unfold better; by rewrite Hcol).
    clearbody init r.
    destruct Hcase as [[Hr0 Hno]|(j' & m & Hj' & Hr' & Hb' & Hbefore)].
    + left. rewrite Hr0. cbn [fst]. split; [done|]. intros c Hc.
      specialize (Hno c Hc). rewrite Hbet in Hno. lia.
    + right. rewrite Hr' in *. cbn [fst snd] in *. rewrite Hbet in Hb'.
      split_and!; [lia| |].
      * intros c Hc. specialize (Hall c Hc). rewrite Hbet in Hall. lia.
      * intros c Hc Hlt. destruct (Hearlier c Hc Hlt) as (i & Hi & Hlk).
        destruct Hr as [[= Hm0 Hi0]|[_ Hbef]]; [lia|].
        specialize (Hbef i c Hi Hlk). rewrite Hbet in Hbef. lia.
  - assert (init = INF) as Hinit by (unfold init; by rewrite Hcol).
    assert (∀ a b, better (color p) a b ↔ a < b) as Hbet
      by (intros; unfold better; by rewrite Hcol).
    clearbody init r.
    destruct Hcase as [[Hr0 Hno]|(j' & m & Hj' & Hr' & Hb' & Hbefore)].
    + left. rewrite Hr0. cbn [fst]. split; [done|]. intros c Hc.
      specialize (Hno c Hc). rewrite Hbet in Hno. lia.
    + right. rewrite Hr' in *. cbn [fst snd] in *. rewrite Hbet in Hb'.
      split_and!; [lia| |].
      * intros c Hc. specialize (Hall c Hc). rewrite Hbet in Hall. lia.
      * intros c Hc Hlt. destruct (Hearlier c Hc Hlt) as (i & Hi & Hlk).
        destruct Hr as [[= Hm0 Hi0]|[_ Hbef]]; [lia|].
        specialize (Hbef i c Hi Hlk). rewrite Hbet in Hbef. lia.
Qed.

Lemma move_pick_first_best_witness :
  let cands p := generated (move_generate p mlist_uninit) in
  let scores p := map (λ c, minimax_score 10 1 (move_do p c)) (cands p) in
  (* WHITE to move: the best score is shared by 4 and 8, 2 scores less *)
  let tie := mk_pos [WHITE; BLACK; EMPTY; BLACK; EMPTY; WHITE; BLACK; WHITE; EMPTY]
                    WHITE in
  (* WHITE to move: every move loses, no score improves on - INF *)
  let lost := mk_pos [BLACK; EMPTY; BLACK; WHITE; BLACK; WHITE; EMPTY; WHITE; EMPTY]
                     WHITE in
  (* BLACK to move: the least score is shared by 6 and 8, 3 and 5 score more *)
  let black := mk_pos [WHITE; BLACK; WHITE; EMPTY; BLACK; EMPTY; EMPTY; WHITE; EMPTY]
                      BLACK in
  (cands tie = [2; 4; 8] ∧ scores tie = [0; 1; 1] ∧
   ∃ n', move_pick 10 1 (mk_state tie 0) = Ok 4 (mk_state tie n')) ∧
  (cands lost = [1; 6; 8] ∧ scores lost = [-100; -100; -100] ∧
   ∃ n', move_pick 10 1 (mk_state lost 0) = Ok 1 (mk_state lost n')) ∧
  (cands black = [3; 5; 6; 8] ∧ scores black = [0; 0; -2; -2] ∧
   ∃ n', move_pick 10 1 (mk_state black 0) = Ok 6 (mk_state black n')).
Proof.
  intros cands scores tie lost black.
  assert (∀ p, wf_posb p = true → wf_pos p) as Hwf by (intros p; apply wf_posb_spec).
  split; [|split].
  - assert (cands tie = [2; 4; 8]) as Hc by (vm_compute; reflexivity).
    assert (scores tie = [0; 1; 1]) as Hs by (vm_compute; reflexivity).
    split; [exact Hc|]. split; [exact Hs|].
    destruct (move_pick_first_best tie 1 0 10 (Hwf tie eq_refl) eq_refl ltac:(lia))
      as (_ & m & n' & Hrun & Hin & Hwhite & _).
    specialize (Hwhite eq_refl). fold (cands tie) in Hin, Hwhite.
    rewrite Hc in Hin, Hwhite.
    clear Hs.
    assert (minimax_score 10 1 (move_do tie 2) = 0) as H2
      by (vm_compute; reflexivity).
    assert (minimax_score 10 1 (move_do tie 4) = 1) as H4
      by (vm_compute; reflexivity).
    assert (minimax_score 10 1 (move_do tie 8) = 1) as H8
      by (vm_compute; reflexivity). rewrite !elem_of_cons, elem_of_nil in Hin.
    assert (m = 4) as ->; [|by exists n'].
    destruct Hwhite as [[_ Hall]|(_ & Hmax & Hfirst)].
    + specialize (Hall 4 ltac:(rewrite !elem_of_cons; tauto)).
      cbv beta in Hall. rewrite H4 in Hall. unfold INF in Hall. lia.
    + pose proof (Hmax 4 ltac:(rewrite !elem_of_cons; tauto)) as Hm4.
      pose proof (Hfirst 4 ltac:(rewrite !elem_of_cons; tauto)) as Hf4.
      cbv beta in Hm4, Hf4.
      destruct Hin as [->|[->|[->|[]]]]; [|done|]; rewrite ?H2, ?H4, ?H8 in *; lia.
  - assert (cands lost = [1; 6; 8]) as Hc by (vm_compute; reflexivity).
    assert (scores lost = [-100; -100; -100]) as Hs by (vm_compute; reflexivity).
    split; [exact Hc|]. split; [exact Hs|].
    destruct (move_pick_first_best lost 1 0 10 (Hwf lost eq_refl) eq_refl ltac:(lia))
      as (_ & m & n' & Hrun & Hin & Hwhite & _).
    specialize (Hwhite eq_refl). fold (cands lost) in Hin, Hwhite.
    rewrite Hc in Hin, Hwhite.
    clear Hs.
    assert (minimax_score 10 1 (move_do lost 1) = -100) as H1
      by (vm_compute; reflexivity).
    assert (minimax_score 10 1 (move_do lost 6) = -100) as H6
      by (vm_compute; reflexivity).
    assert (minimax_score 10 1 (move_do lost 8) = -100) as H8
      by (vm_compute; reflexivity). rewrite !elem_of_cons, elem_of_nil in Hin.
    assert (m = 1) as ->; [|by exists n'].
    destruct Hwhite as [[Hhead _]|(Hbetter & _)].
    + by injection Hhead as <-.
    + cbv beta in Hbetter. unfold INF in Hbetter.
      destruct Hin as [->|[->|[->|[]]]]; rewrite ?H1, ?H6, ?H8 in *; lia.
  - assert (cands black = [3; 5; 6; 8]) as Hc by (vm_compute; reflexivity).
    assert (scores black = [0; 0; -2; -2]) as Hs by (vm_compute; reflexivity).
    split; [exact Hc|]. split; [exact Hs|].
    destruct (move_pick_first_best black 1 0 10 (Hwf black eq_refl) eq_refl ltac:(lia))
      as (_ & m & n' & Hrun & Hin & _ & Hblack).
    specialize (Hblack eq_refl). fold (cands black) in Hin, Hblack.
    rewrite Hc in Hin, Hblack.
    clear Hs.
    assert (minimax_score 10 1 (move_do black 3) = 0) as H3
      by (vm_compute; reflexivity).
    assert (minimax_score 10 1 (move_do black 5) = 0) as H5
      by (vm_compute; reflexivity).
    assert (minimax_score 10 1 (move_do black 6) = -2) as H6
      by (vm_compute; reflexivity).
    assert (minimax_score 10 1 (move_do black 8) = -2) as H8
      by (vm_compute; reflexivity). rewrite !elem_of_cons, elem_of_nil in Hin.
    assert (m = 6) as ->; [|by exists n'].
    destruct Hblack as [[_ Hall]|(_ & Hmin & Hfirst)].
    + specialize (Hall 6 ltac:(rewrite !elem_of_cons; tauto)).
      cbv beta in Hall. rewrite H6 in Hall. unfold INF in Hall. lia.
    + pose proof (Hmin 6 ltac:(rewrite !elem_of_cons; tauto)) as Hm6.
      pose proof (Hfirst 6 ltac:(rewrite !elem_of_cons; tauto)) as Hf6.
      cbv beta in Hm6, Hf6.
      destruct Hin as [->|[->|[->|[->|[]]]]]; [| |done|];
        rewrite ?H3, ?H5, ?H6, ?H8 in *; lia.
Defined.

(** The move that completes the top row wins on the spot. *)
Lemma top_row_checkmate p :
  wf_pos p → color p = WHITE →
  sq p !!! 0%nat = WHITE → sq p !!! 1%nat = WHITE →
  checkmate (move_do p 2) = 1.
Proof.
  intros [Hlen _] Hc H0 H1.
  apply (proj2 (checkmate_lines_spec (move_do p 2))). left.
  unfold line_of. cbn [move_do sq color]. rewrite Hc.
  change (Z.to_nat 2) with 2%nat. flip_simpl.
  rewrite !list_lookup_total_insert_ne by done.
  rewrite list_lookup_total_insert_eq by (rewrite Hlen; unfold SQUARES_MAX; lia).
  done.
Qed.

Lemma top_row_candidates p :
  sq p !!! 0%nat = WHITE → sq p !!! 1%nat = WHITE → sq p !!! 2%nat = EMPTY →
  ∃ rest, generated (move_generate p mlist_uninit) = 2 :: rest.
Proof.
  intros H0 H1 H2.
  destruct (move_generate_generated p mlist_uninit eq_refl) as (-> & _ & _).
  unfold empty_squares, SQUARES_MAX. cbn [seq].
  rewrite filter_cons_False by (rewrite H0; discriminate).
  rewrite filter_cons_False by (rewrite H1; discriminate).
  rewrite filter_cons_True by done. rewrite fmap_cons. eauto.
Qed.

(** For any depth: the row is completed. *)
Lemma move_pick_top_row fuel depth p n :
  wf_pos p → color p = WHITE →
  sq p !!! 0%nat = WHITE → sq p !!! 1%nat = WHITE → sq p !!! 2%nat = EMPTY →
  (9 < fuel)%nat →
  ∃ n', move_pick fuel depth (mk_state p n) = Ok 2 (mk_state p n').
Proof.
  intros Hwf Hc H0 H1 H2 Hfuel.
  assert (board_empty p = true) as Hb.
  { apply board_empty_from_spec. exists 2%nat. split; [|done].
    apply elem_of_seq. unfold SQUARES_MAX. lia. }
  pose proof (enough_fuel_10 fuel depth p Hwf Hfuel) as Hf.
  destruct (move_pick_eq fuel depth p n Hwf Hb Hf) as (_ & n' & Hrun).
  exists n'. rewrite Hrun. f_equal. clear Hrun.
  destruct (top_row_candidates p H0 H1 H2) as [rest Hcands].
  destruct (generated_candidate p 0 Hwf (moves_positive p Hwf Hb)) as [Hm0 _].
  rewrite Hcands in Hm0 |- *. injection Hm0 as <-.
  set (score := λ m, minimax_score fuel depth (move_do p m)).
  assert (score 2 = INF) as Hwin.
  { unfold score. destruct fuel as [|fuel]; [lia|].
    rewrite minimax_score_step
      by (by apply move_do_wf || apply enough_fuel_10; by try apply move_do_wf).
    rewrite (top_row_checkmate p Hwf Hc H0 H1). cbn [negb Z.eqb].
    cbn [move_do color]. by rewrite Hc. }
  cbn [fold_left]. unfold pick_step at 2. rewrite Hc.
  rewrite decide_True by done. cbn [snd]. rewrite Hwin.
  rewrite decide_True by done. change (INF >? - INF) with true. cbv iota.
  destruct (pick_fold_spec WHITE score rest (2, INF))
    as (_ & _ & [[-> _]|(j & m & _ & _ & Hbetter & _)]); [done|].
  unfold better in Hbetter. rewrite decide_True in Hbetter by done.
  cbn [snd] in Hbetter.
  pose proof (minimax_score_bounds fuel depth (move_do p m) (move_do_wf p m Hwf)).
  unfold score in Hbetter. lia.
Qed.

(** C7: for every position in which WHITE is to move, holds squares 0 and 1,
    and square 2 is empty, [move_pick] at every depth >= 1 returns move 2,
    the move after which [checkmate] holds. *)
Theorem move_pick_completes_row (p : board_pos) (depth n : Z) (fuel : nat) :
  wf_pos p → color p = WHITE →
  sq p !!! 0%nat = WHITE → sq p !!! 1%nat = WHITE → sq p !!! 2%nat = EMPTY →
  1 ≤ depth → (9 < fuel)%nat →
  checkmate (move_do p 2) = 1 ∧
  ∃ n', move_pick fuel depth (mk_state p n) = Ok 2 (mk_state p n').
Proof.
  intros Hwf Hc H0 H1 H2 _ Hfuel. split.
  - by apply top_row_checkmate.
  - by apply move_pick_top_row.
Qed.

Lemma move_pick_completes_row_witness :
  let p := mk_pos [WHITE; WHITE; EMPTY; BLACK; BLACK; EMPTY; EMPTY; EMPTY; EMPTY] WHITE in
  checkmate (move_do p 2) = 1 ∧
  ∃ n', move_pick 10 3 (mk_state p 0) = Ok 2 (mk_state p n').
Proof.
  intros p. apply (move_pick_completes_row p 3 0 10).
  - split; [reflexivity | discriminate].
  - reflexivity.
  - reflexivity.
  - reflexivity.
  - reflexivity.
  - lia.
  - lia.
Defined.

(** * Further properties of the engine *)

(** ** [board_empty] and the move list *)

Lemma board_empty_false_count p :
  length (sq p) = SQUARES_MAX →
  board_empty p = false → count_piece EMPTY p = 0%nat.
Proof.
  intros Hlen Hb. rewrite <- length_empty_squares by done.
  destruct (empty_squares p (seq 0 SQUARES_MAX)) as [|i l] eqn:E; [done|].
  assert (i ∈ empty_squares p (seq 0 SQUARES_MAX)) as Hi by (rewrite E; left).
  apply list_elem_of_filter in Hi as [He Hi].
  assert (board_empty p = true) as Ht
    by (apply board_empty_from_spec; eauto).
  congruence.
Qed.

(** X1: [board_empty] is true exactly when one of the squares 0-8 is empty,
    which is exactly when [move_generate] finds a move; it is false exactly
    when the WHITE and BLACK marks fill all nine squares. *)
Theorem board_empty_iff (p : board_pos) (mp : move_list) :
  wf_pos p → length (move mp) = MOVES_MAX →
  (board_empty p = true ↔ ∃ i, (i < 9)%nat ∧ sq p !!! i = EMPTY) ∧
  (board_empty p = true ↔ (0 < moves (move_generate p mp))%nat) ∧
  (board_empty p = false ↔
   (count_piece WHITE p + count_piece BLACK p = 9)%nat).
Proof.
  intros [Hlen _] Hmp.
  destruct (move_generate_generated p mp Hmp) as (_ & Hm & _).
  rewrite length_empty_squares in Hm by done.
  pose proof (count_total (sq p)) as Ht. rewrite Hlen in Ht.
  unfold SQUARES_MAX in Ht. fold (count_piece WHITE p) in Ht.
  fold (count_piece BLACK p) in Ht. fold (count_piece EMPTY p) in Ht.
  split_and!.
  - unfold board_empty. rewrite board_empty_from_spec. split.
    + intros (i & Hi%elem_of_seq & He). exists i. unfold SQUARES_MAX in Hi.
      split; [lia|done].
    + intros (i & Hi & He). exists i. split; [|done]. apply elem_of_seq.
      unfold SQUARES_MAX. lia.
  - rewrite Hm. split; [by apply board_empty_count|].
    intros Hpos. destruct (board_empty p) eqn:Hb; [done|].
    pose proof (board_empty_false_count p Hlen Hb). lia.
  - split.
    + intros Hb. pose proof (board_empty_false_count p Hlen Hb). lia.
    + intros Hfull. destruct (board_empty p) eqn:Hb; [|done].
      pose proof (board_empty_count p Hlen Hb). lia.
Qed.

Lemma board_empty_iff_witness :
  let p := mk_pos [WHITE; BLACK; WHITE; BLACK; WHITE; BLACK; BLACK; WHITE; EMPTY] WHITE in
  (board_empty p = true ↔ ∃ i, (i < 9)%nat ∧ sq p !!! i = EMPTY) ∧
  (board_empty p = true ↔ (0 < moves (move_generate p mlist_uninit))%nat) ∧
  (board_empty p = false ↔
   (count_piece WHITE p + count_piece BLACK p = 9)%nat).
Proof.
  apply board_empty_iff.
  - split; [reflexivity | discriminate].
  - reflexivity.
Defined.

(** ** The unused slots of a move list *)




(** ** What [minimax] leaves behind *)

Lemma for_loop_no_assert {Acc} idx (body : nat → Acc → M Acc) :
  (∀ i acc s, body i acc s ≠ AssertFail) →
  ∀ acc s, for_loop idx body acc s ≠ AssertFail.
Proof.
  intros Hbody. induction idx as [|i idx IH]; intros acc s; [done|].
  rewrite for_loop_cons. pose proof (Hbody i acc s) as Hb.
  destruct (body i acc s); [apply IH | done | done].
Qed.

Lemma minimax_no_assert fuel : ∀ depth s, minimax fuel depth s ≠ AssertFail.
Proof.
  induction fuel as [|fuel IH]; intros depth s; [done|].
  rewrite minimax_eq. cbv zeta.
  destruct (negb (checkmate (pos s) =? 0)); [done|].
  destruct (negb (board_empty (pos s))); [done|].
  destruct (depth =? 0); [done|].
  apply for_loop_no_assert. intros i acc t. rewrite minimax_body_eq. cbv zeta.
  pose proof (IH (depth - 1)
    (mk_state (move_do (pos t) (move (move_generate (pos s) mlist_uninit) !!! i))
              (nodecount t))) as Hrec.
  by destruct (minimax fuel (depth - 1) _).
Qed.

(** X3: [minimax] never fails an assertion, and when it returns the position
    is exactly the one it was called on, at every depth, negative ones
    included. *)
Theorem minimax_restores (p : board_pos) (n depth : Z) (fuel : nat) :
  wf_pos p →
  match minimax fuel depth (mk_state p n) with
  | Ok _ s' => pos s' = p
  | AssertFail => False
  | OutOfFuel => True
  end.
Proof.
  intros Hwf. pose proof (minimax_sound fuel depth (mk_state p n) Hwf) as Hs.
  pose proof (minimax_no_assert fuel depth (mk_state p n)) as Ha.
  unfold post in Hs. destruct (minimax fuel depth _); [by destruct Hs|done..].
Qed.

Lemma minimax_restores_witness :
  match minimax 2 1
          (mk_state (mk_pos [WHITE; BLACK; WHITE; BLACK; WHITE; BLACK; BLACK; WHITE; EMPTY] WHITE) 0) with
  | Ok _ s' =>
      pos s' = mk_pos [WHITE; BLACK; WHITE; BLACK; WHITE; BLACK; BLACK; WHITE; EMPTY] WHITE
  | AssertFail => False
  | OutOfFuel => True
  end.
Proof. apply minimax_restores. split; [reflexivity | discriminate]. Defined.

(** ** The node counter *)

Lemma nodes_bound_pos k : 1 ≤ nodes_bound k.
Proof. induction k as [|k IH]; cbn [nodes_bound]; nia. Qed.

Lemma nodes_bound_mono k k' : (k ≤ k')%nat → nodes_bound k ≤ nodes_bound k'.
Proof.
  induction 1 as [|k' _ IH]; [lia|].
  pose proof (nodes_bound_pos k'). cbn [nodes_bound]. nia.
Qed.

Lemma sum_fold_bounds (f : Z → Z) B cands init :
  (∀ m, m ∈ cands → 1 ≤ f m ≤ B) →
  init + Z.of_nat (length cands)
  ≤ fold_left (λ n m, n + f m) cands init
  ≤ init + Z.of_nat (length cands) * B.
Proof.
  revert init. induction cands as [|m cands IH]; intros init Hf.
  - simpl. lia.
  - cbn [fold_left length]. pose proof (Hf m ltac:(left)) as Hm.
    specialize (IH (init + f m) ltac:(intros; apply Hf; by right)). nia.
Qed.

Lemma sum_fold_le (f g : Z → Z) cands init init' :
  init ≤ init' → (∀ m, m ∈ cands → f m ≤ g m) →
  fold_left (λ n m, n + f m) cands init ≤ fold_left (λ n m, n + g m) cands init'.
Proof.
  revert init init'. induction cands as [|m cands IH]; intros init init' Hi Hf.
  - done.
  - cbn [fold_left]. apply IH.
    + pose proof (Hf m ltac:(left)). lia.
    + intros m' Hm'. apply Hf. by right.
Qed.

Lemma generated_length p :
  wf_pos p →
  length (generated (move_generate p mlist_uninit)) = count_piece EMPTY p.
Proof.
  intros [Hlen _].
  destruct (move_generate_generated p mlist_uninit eq_refl) as (-> & _ & _).
  rewrite length_fmap. by apply length_empty_squares.
Qed.

Lemma generated_empty p m :
  wf_pos p → m ∈ generated (move_generate p mlist_uninit) →
  sq p !! Z.to_nat m = Some EMPTY.
Proof.
  intros Hwf [Hr He]%elem_of_generated; [|done].
  rewrite <- He. apply lookup_total_Some. destruct Hwf as [-> _]. lia.
Qed.

Lemma minimax_nodes_S fuel depth p :
  minimax_nodes (S fuel) depth p =
  if negb (checkmate p =? 0) then 1
  else if negb (board_empty p) then 1
  else if depth =? 0 then 1
  else
    fold_left (λ n m, n + minimax_nodes fuel (depth - 1) (move_do p m))
              (generated (move_generate p mlist_uninit)) 1.
Proof. reflexivity. Qed.

Lemma minimax_nodes_bounds fuel : ∀ depth p,
  wf_pos p →
  1 ≤ minimax_nodes (S fuel) depth p ≤ nodes_bound (count_piece EMPTY p).
Proof.
  induction fuel as [|fuel IH]; intros depth p Hwf;
    pose proof (nodes_bound_pos (count_piece EMPTY p)) as Hb;
    rewrite minimax_nodes_S;
    (destruct (negb (checkmate p =? 0)); [lia|]);
    (destruct (board_empty p) eqn:He; cbn [negb]; [|lia]);
    (destruct (depth =? 0); [lia|]).
  - (* no fuel below: every call under this one counts 0 *)
    pose proof (board_empty_count p (proj1 Hwf) He) as Hpos.
    assert (∀ cands init,
      fold_left (λ n m, n + minimax_nodes 0 (depth - 1) (move_do p m)) cands init
      = init) as Hz.
    { induction cands as [|m cands IHc]; intros init; [done|].
      cbn [fold_left minimax_nodes]. rewrite IHc. lia. }
    rewrite Hz. lia.
  - pose proof (board_empty_count p (proj1 Hwf) He) as Hpos.
    destruct (count_piece EMPTY p) as [|k] eqn:Hk; [lia|].
    pose proof (sum_fold_bounds
      (λ m, minimax_nodes (S fuel) (depth - 1) (move_do p m))
      (nodes_bound k) (generated (move_generate p mlist_uninit)) 1) as Hsum.
    rewrite generated_length, Hk in Hsum by done.
    cbn [nodes_bound]. destruct Hsum as [Hlo Hhi]; [|lia].
    intros m Hm. pose proof (generated_empty p m Hwf Hm) as Hl.
    pose proof (count_empty_move_do p m Hl (proj2 Hwf)) as Hc.
    specialize (IH (depth - 1) (move_do p m) (move_do_wf p m Hwf)).
    replace (count_piece EMPTY (move_do p m)) with k in IH by lia. done.
Qed.

Lemma minimax_nodes_depth_mono fuel : ∀ depth p,
  wf_pos p → (count_piece EMPTY p < fuel)%nat → 0 ≤ depth →
  minimax_nodes fuel depth p ≤ minimax_nodes fuel (depth + 1) p.
Proof.
  induction fuel as [|fuel IH]; intros depth p Hwf Hc Hd; [lia|].
  pose proof (minimax_nodes_bounds fuel (depth + 1) p Hwf) as Hb.
  rewrite !minimax_nodes_S in *.
  destruct (negb (checkmate p =? 0)); [lia|].
  destruct (negb (board_empty p)); [lia|].
  destruct (Z.eqb_spec depth 0) as [->|Hne]; [lia|].
  destruct (Z.eqb_spec (depth + 1) 0) as [|_]; [lia|].
  apply sum_fold_le; [lia|]. intros m Hm.
  pose proof (generated_empty p m Hwf Hm) as Hl.
  pose proof (count_empty_move_do p m Hl (proj2 Hwf)) as Hcm.
  replace (depth + 1 - 1) with (depth - 1 + 1) by lia.
  apply IH; [by apply move_do_wf | lia | lia].
Qed.

Lemma minimax_nodecount_after fuel : ∀ depth p n v s',
  wf_pos p →
  minimax fuel depth (mk_state p n) = Ok v s' →
  nodecount s' = (n + minimax_nodes fuel depth p) mod 2 ^ 32.
Proof.
  induction fuel as [|fuel IH]; intros depth p n v s' Hwf; [done|].
  rewrite minimax_eq, minimax_nodes_S. cbv zeta. cbn [pos nodecount].
  destruct (negb (checkmate p =? 0)); [by intros [= _ <-]|].
  destruct (negb (board_empty p)); [by intros [= _ <-]|].
  destruct (depth =? 0); [by intros [= _ <-]|].
  set (ml := move_generate p mlist_uninit).
  set (f := λ m, minimax_nodes fuel (depth - 1) (move_do p m)).
  intros Hrun.
  pose proof (for_loop_post
    (λ k (_ : Z) t, pos t = p ∧
       nodecount t = (n + fold_left (λ a m, a + f m) (take k (generated ml)) 1)
                     mod 2 ^ 32)
    (minimax_body (minimax fuel (depth - 1)) ml) 0 (moves ml)
    (if decide (color p = WHITE) then - INF else INF)
    (mk_state p ((n + 1) mod 2 ^ 32))) as Hloop.
  cbn beta in Hloop. rewrite Nat.add_0_l in Hloop.
  assert (take (moves ml) (generated ml) = generated ml) as Htake.
  { unfold generated. rewrite take_take. f_equal. lia. }
  rewrite Htake in Hloop. unfold post in Hloop. rewrite Hrun in Hloop.
  apply Hloop; clear Hloop Hrun; [done|].
  intros k acc s1 Hk [Hp Hn]. unfold post. rewrite minimax_body_eq. cbv zeta.
  destruct (generated_candidate p k Hwf ltac:(fold ml; lia)) as (Hg & Hr & He).
  fold ml in Hg, Hr, He. set (m := move ml !!! k) in *.
  pose proof (minimax_sound fuel (depth - 1)
                (mk_state (move_do (pos s1) m) (nodecount s1))
                ltac:(by apply move_do_wf; rewrite Hp)) as Hs.
  unfold post in Hs.
  destruct (minimax fuel (depth - 1) _) as [v2 s2| |] eqn:E; [|done..].
  destruct Hs as [Hp2 _]. cbn [pos nodecount] in *. rewrite Hp in *.
  apply IH in E; [|by apply move_do_wf].
  rewrite Hp2, (move_undo_move_do p m (proj2 Hwf) He). split; [done|].
  rewrite (take_S_r _ _ _ Hg), fold_left_app. cbn [fold_left].
  rewrite E, Hn. fold (f m). rewrite Z.add_mod_idemp_l by lia. f_equal. lia.
Qed.

Lemma minimax_run fuel depth p n :
  wf_pos p → enough_fuel fuel depth p →
  minimax fuel depth (mk_state p n)
  = Ok (minimax_score fuel depth p)
       (mk_state p ((n + minimax_nodes fuel depth p) mod 2 ^ 32)).
Proof.
  intros Hwf Hf. destruct (minimax_returns fuel depth p n Hwf Hf) as [n' H].
  rewrite H. f_equal. f_equal.
  by apply (minimax_nodecount_after _ _ _ _ _ _ Hwf) in H.
Qed.

(** X4: a call of [minimax] adds to [nodecount] the number of calls of the
    search, itself included, whatever the counter was before; that number is
    at least 1 and at most 986410 on nine empty squares, and for depths from
    0 upwards it does not decrease when the depth grows. *)
Theorem minimax_counts_nodes (p : board_pos) (n depth : Z) (fuel : nat) :
  wf_pos p → (9 < fuel)%nat →
  minimax fuel depth (mk_state p n)
  = Ok (minimax_score fuel depth p)
       (mk_state p ((n + minimax_nodes fuel depth p) mod 2 ^ 32)) ∧
  1 ≤ minimax_nodes fuel depth p ≤ nodes_bound (count_piece EMPTY p) ∧
  nodes_bound (count_piece EMPTY p) ≤ 986410 ∧
  (0 ≤ depth → minimax_nodes fuel depth p ≤ minimax_nodes fuel (depth + 1) p).
Proof.
  intros Hwf Hfuel. pose proof (count_empty_le p (proj1 Hwf)) as Hle.
  split; [|split; [|split]].
  - apply minimax_run; [done|]. by apply enough_fuel_10.
  - destruct fuel as [|fuel]; [lia|]. by apply minimax_nodes_bounds.
  - by apply (nodes_bound_mono _ 9).
  - intros Hd. apply minimax_nodes_depth_mono; [done | lia | done].
Qed.

Lemma minimax_counts_nodes_witness :
  let p := mk_pos [WHITE; BLACK; WHITE; BLACK; WHITE; BLACK; BLACK; WHITE; EMPTY] WHITE in
  minimax 10 1 (mk_state p 7)
  = Ok (minimax_score 10 1 p) (mk_state p ((7 + minimax_nodes 10 1 p) mod 2 ^ 32)) ∧
  1 ≤ minimax_nodes 10 1 p ≤ nodes_bound (count_piece EMPTY p) ∧
  nodes_bound (count_piece EMPTY p) ≤ 986410 ∧
  (0 ≤ 1 → minimax_nodes 10 1 p ≤ minimax_nodes 10 (1 + 1) p).
Proof.
  intros p. apply (minimax_counts_nodes p 7 1 10).
  - split; [reflexivity | discriminate].
  - lia.
Defined.

(** ** The two folds agree *)

Lemma pick_fold_score c score cands : ∀ acc,
  (fold_left (pick_step c score) cands acc).2 = fold_scores c score cands acc.2.
Proof.
  unfold fold_scores. induction cands as [|m cands IH]; intros acc; [done|].
  cbn [fold_left]. rewrite IH. f_equal.
  unfold pick_step, MAX, MIN. case_decide.
  - destruct (Z.gtb_spec (score m) acc.2), (Z.gtb_spec acc.2 (score m));
      cbn [snd]; lia.
  - destruct (Z.ltb_spec (score m) acc.2), (Z.gtb_spec acc.2 (score m));
      cbn [snd]; lia.
Qed.

(** No candidate, and not the initial value either, is better for the side
    to move than the result of the fold. *)
Lemma fold_scores_not_worse c score cands init :
  ¬ better c init (fold_scores c score cands init) ∧
  ∀ m, m ∈ cands → ¬ better c (score m) (fold_scores c score cands init).
Proof.
  destruct (pick_fold_spec c score cands (0, init)) as (Hi & Hall & _).
  rewrite pick_fold_score in Hi, Hall. done.
Qed.

(** The result of the fold is the initial value or the score of a candidate. *)
Lemma fold_scores_attained c score cands init :
  fold_scores c score cands init = init ∨
  ∃ m, m ∈ cands ∧ fold_scores c score cands init = score m.
Proof.
  destruct (pick_fold_spec c score cands (0, init))
    as (_ & _ & [[Hr _]|(j & m & Hj & Hr & _)]);
    apply (f_equal snd) in Hr; rewrite pick_fold_score in Hr; cbn [snd] in Hr.
  - by left.
  - right. exists m. split; [|done]. by apply list_elem_of_lookup_2 in Hj.
Qed.

(** ** Searching to the end of the game *)

Lemma minimax_score_exhaustive fuel : ∀ depth p,
  wf_pos p → (count_piece EMPTY p < fuel)%nat →
  depth < 0 ∨ Z.of_nat (count_piece EMPTY p) ≤ depth →
  minimax_score fuel depth p = full_score p.
Proof.
  induction fuel as [|fuel IH]; intros depth p Hwf Hc Hd; [lia|].
  rewrite minimax_score_step by (done || by right).
  rewrite (full_score_step p Hwf).
  destruct (negb (checkmate p =? 0)); [done|].
  destruct (board_empty p) eqn:Hb; [|done]. cbn [negb].
  pose proof (board_empty_count p (proj1 Hwf) Hb) as Hpos.
  destruct (Z.eqb_spec depth 0) as [|_]; [lia|].
  apply fold_scores_ext. intros m Hm.
  pose proof (generated_empty p m Hwf Hm) as Hl.
  pose proof (count_empty_move_do p m Hl (proj2 Hwf)) as Hcm.
  apply IH; [by apply move_do_wf | lia | lia].
Qed.

(** X5: a search deep enough to reach the end of the game on every line
    does not depend on the depth: every depth that is at least the number of
    empty squares, and every negative depth, gives the same score. *)
Theorem minimax_exhaustive_depth (p : board_pos) (n1 n2 d1 d2 : Z)
    (fuel1 fuel2 : nat) :
  wf_pos p →
  (count_piece EMPTY p < fuel1)%nat → (count_piece EMPTY p < fuel2)%nat →
  d1 < 0 ∨ Z.of_nat (count_piece EMPTY p) ≤ d1 →
  d2 < 0 ∨ Z.of_nat (count_piece EMPTY p) ≤ d2 →
  ∃ v n1' n2',
    minimax fuel1 d1 (mk_state p n1) = Ok v (mk_state p n1') ∧
    minimax fuel2 d2 (mk_state p n2) = Ok v (mk_state p n2').
Proof.
  intros Hwf Hf1 Hf2 Hd1 Hd2.
  destruct (minimax_returns fuel1 d1 p n1 Hwf ltac:(by right)) as [n1' H1].
  destruct (minimax_returns fuel2 d2 p n2 Hwf ltac:(by right)) as [n2' H2].
  exists (full_score p), n1', n2'.
  rewrite H1, H2. by rewrite !minimax_score_exhaustive.
Qed.

Lemma minimax_exhaustive_depth_witness :
  let p := mk_pos [WHITE; BLACK; WHITE; BLACK; WHITE; BLACK; BLACK; WHITE; EMPTY] WHITE in
  ∃ v n1' n2',
    minimax 2 (-5) (mk_state p 0) = Ok v (mk_state p n1') ∧
    minimax 3 1 (mk_state p 0) = Ok v (mk_state p n2').
Proof.
  intros p. apply (minimax_exhaustive_depth p 0 0 (-5) 1 2 3).
  - split; [reflexivity | discriminate].
  - vm_compute; lia.
  - vm_compute; lia.
  - left; lia.
  - right. vm_compute. discriminate.
Defined.

Lemma full_score_values : ∀ k p,
  wf_pos p → count_piece EMPTY p = k →
  full_score p = - INF ∨ full_score p = 0 ∨ full_score p = INF.
Proof.
  induction k as [|k IH]; intros p Hwf Hk; rewrite (full_score_step p Hwf).
  - destruct (negb (checkmate p =? 0)); [case_decide; auto|].
    destruct (board_empty p) eqn:Hb; [|auto].
    pose proof (board_empty_count p (proj1 Hwf) Hb). lia.
  - destruct (negb (checkmate p =? 0)); [case_decide; auto|].
    destruct (negb (board_empty p)); [auto|].
    destruct (fold_scores_attained (color p) (λ m, full_score (move_do p m))
                (generated (move_generate p mlist_uninit))
                (if decide (color p = WHITE) then - INF else INF))
      as [->|(m & Hm & ->)]; [case_decide; auto|].
    pose proof (generated_empty p m Hwf Hm) as Hl.
    pose proof (count_empty_move_do p m Hl (proj2 Hwf)) as Hcm.
    apply IH; [by apply move_do_wf | lia].
Qed.

(** X6: a search that reaches the end of the game on every line returns
    only the values -100, 0 and 100; the heuristic is never consulted. *)
Theorem minimax_exhaustive_values (p : board_pos) (n depth : Z) (fuel : nat) :
  wf_pos p → (count_piece EMPTY p < fuel)%nat →
  depth < 0 ∨ Z.of_nat (count_piece EMPTY p) ≤ depth →
  ∃ v n', minimax fuel depth (mk_state p n) = Ok v (mk_state p n') ∧
          (v = -100 ∨ v = 0 ∨ v = 100).
Proof.
  intros Hwf Hf Hd.
  destruct (minimax_returns fuel depth p n Hwf ltac:(by right)) as [n' H].
  exists (full_score p), n'. rewrite H, minimax_score_exhaustive by done.
  split; [done|]. apply (full_score_values _ p Hwf eq_refl).
Qed.

Lemma minimax_exhaustive_values_witness :
  let p := mk_pos [WHITE; BLACK; WHITE; BLACK; WHITE; BLACK; BLACK; WHITE; EMPTY] WHITE in
  ∃ v n', minimax 2 1 (mk_state p 0) = Ok v (mk_state p n') ∧
          (v = -100 ∨ v = 0 ∨ v = 100).
Proof.
  intros p. apply (minimax_exhaustive_values p 0 1 2).
  - split; [reflexivity | discriminate].
  - vm_compute; lia.
  - right. vm_compute. discriminate.
Defined.

(** ** A win in one move *)

Lemma minimax_score_won fuel depth p :
  wf_pos p → checkmate p ≠ 0 →
  minimax_score (S fuel) depth p = if decide (color p = WHITE) then - INF else INF.
Proof.
  intros Hwf Hw. unfold minimax_score. rewrite minimax_eq. cbn [pos nodecount].
  by destruct (Z.eqb_spec (checkmate p) 0).
Qed.

(** X7: on a position that is not already won ([checkmate] is 0), when the
    side to move can win on the spot (some empty square [m] after which
    [checkmate] holds), [minimax] at every depth other than 0 scores the
    position as won for it: 100 for WHITE to move, -100 for BLACK to
    move. *)
Theorem minimax_win_in_one (p : board_pos) (n depth m : Z) (fuel : nat) :
  wf_pos p → checkmate p = 0 → (9 < fuel)%nat → depth ≠ 0 →
  0 ≤ m < 9 → sq p !!! Z.to_nat m = EMPTY → checkmate (move_do p m) ≠ 0 →
  ∃ n', minimax fuel depth (mk_state p n)
        = Ok (if decide (color p = WHITE) then 100 else -100) (mk_state p n').
Proof.
  intros Hwf Hnw Hfuel Hd Hm He Hwin.
  destruct (minimax_returns fuel depth p n Hwf (enough_fuel_10 _ _ _ Hwf Hfuel))
    as [n' Hrun].
  exists n'. rewrite Hrun. f_equal.
  pose proof (minimax_score_bounds fuel depth p Hwf) as Hbounds.
  destruct fuel as [|fuel]; [lia|]. destruct fuel as [|fuel]; [lia|].
  rewrite minimax_score_step in Hbounds |- * by (done || right;
    pose proof (count_empty_le p (proj1 Hwf)); lia).
  assert (board_empty p = true) as Hb.
  { apply board_empty_from_spec. exists (Z.to_nat m). split; [|done].
    apply elem_of_seq. unfold SQUARES_MAX. lia. }
  rewrite Hnw, Hb in *. cbn [Z.eqb negb] in *.
  destruct (Z.eqb_spec depth 0) as [|_]; [done|].
  set (score := λ m, minimax_score (S fuel) (depth - 1) (move_do p m)) in *.
  destruct (fold_scores_not_worse (color p) score
              (generated (move_generate p mlist_uninit))
              (if decide (color p = WHITE) then - INF else INF)) as [_ Hall].
  specialize (Hall m ltac:(by apply elem_of_generated)).
  unfold score at 1 in Hall.
  rewrite minimax_score_won in Hall by (by apply move_do_wf || done).
  cbn [move_do color] in Hall. unfold better, INF in *.
  destruct (color p) eqn:Hc; [| |by destruct Hwf]; flip_simpl;
    repeat case_decide; try done; lia.
Qed.

Lemma minimax_win_in_one_witness :
  let p := mk_pos [WHITE; WHITE; EMPTY; BLACK; BLACK; EMPTY; EMPTY; EMPTY; EMPTY] WHITE in
  ∃ n', minimax 10 3 (mk_state p 0)
        = Ok (if decide (color p = WHITE) then 100 else -100) (mk_state p n').
Proof.
  intros p. apply (minimax_win_in_one p 0 3 2 10).
  - split; [reflexivity | discriminate].
  - reflexivity.
  - lia.
  - discriminate.
  - lia.
  - reflexivity.
  - vm_compute. discriminate.
Defined.

(** ** [move_pick] against [minimax] *)

Lemma move_pick_score fuel depth p :
  wf_pos p → board_empty p = true →
  let ml := move_generate p mlist_uninit in
  let score := λ m, minimax_score fuel depth (move_do p m) in
  let init := if decide (color p = WHITE) then - INF else INF in
  let r := fold_left (pick_step (color p) score) (generated ml)
                     (move ml !!! 0%nat, init) in
  score r.1 = fold_scores (color p) score (generated ml) init.
Proof.
  intros Hwf Hb ml score init r.
  rewrite <- (pick_fold_score (color p) score (generated ml) (move ml !!! 0%nat, init)).
  fold r.
  destruct (pick_fold_spec (color p) score (generated ml) (move ml !!! 0%nat, init))
    as (_ & _ & [[Hr Hno]|(j & m & _ & Hr & _)]); fold r in Hr; rewrite Hr; [|done].
  cbn [fst snd] in *.
  destruct (generated_candidate p 0 Hwf (moves_positive p Hwf Hb)) as [Hm0 _].
  fold ml in Hm0. apply list_elem_of_lookup_2 in Hm0.
  specialize (Hno _ Hm0).
  pose proof (minimax_score_bounds fuel depth (move_do p (move ml !!! 0%nat))
                (move_do_wf _ _ Hwf)) as Hbd.
  fold (score (move ml !!! 0%nat)) in Hbd.
  unfold better, init in *. case_decide; lia.
Qed.



(** ** The heuristic counts threats *)

Lemma eval_line_threat p pts a b c :
  color p ≠ EMPTY →
  eval_line p (flip_color (color p)) pts [a; b; c]
  = pts + (if decide (open_threat p [a; b; c]) then 1 else 0)
        - (if decide (blocked_threat p [a; b; c]) then 1 else 0).
Proof.
  intros Hc. unfold eval_line, eval_ours, eval_points, open_threat,
    blocked_threat, line_count. cbn [fold_left]. rewrite !filter_cons, !filter_nil.
  destruct (color p); [| |done]; flip_simpl;
    destruct (sq p !!! a), (sq p !!! b), (sq p !!! c); simpl; lia.
Qed.

Lemma eval_lines_threat p lines pts :
  color p ≠ EMPTY →
  Forall (λ line, ∃ a b c, line = [a; b; c]) lines →
  fold_left (eval_line p (flip_color (color p))) lines pts
  = pts + Z.of_nat (length (filter (open_threat p) lines))
        - Z.of_nat (length (filter (blocked_threat p) lines)).
Proof.
  intros Hc Hl. revert pts.
  induction Hl as [|line lines (a & b & c & ->) _ IH]; intros pts.
  - simpl. lia.
  - cbn [fold_left]. rewrite IH, eval_line_threat by done.
    rewrite !filter_cons. repeat case_decide; cbn [length]; lia.
Qed.

(** X9: [eval] is the number of winning lines on which the side to move
    holds two squares with the third one empty, minus the number of winning
    lines on which it holds two squares with the third one held by the
    other side. *)
Theorem eval_counts_threats (p : board_pos) :
  wf_pos p →
  eval p = Z.of_nat (length (filter (open_threat p) winning_squares))
           - Z.of_nat (length (filter (blocked_threat p) winning_squares)).
Proof.
  intros [_ Hc]. unfold eval.
  rewrite (eval_lines_threat p winning_squares 0 Hc winning_squares_lines). lia.
Qed.

Lemma eval_counts_threats_witness :
  let p := mk_pos [WHITE; WHITE; EMPTY; BLACK; WHITE; EMPTY; EMPTY; BLACK; BLACK] WHITE in
  eval p = Z.of_nat (length (filter (open_threat p) winning_squares))
           - Z.of_nat (length (filter (blocked_threat p) winning_squares)).
Proof. apply eval_counts_threats. split; [reflexivity | discriminate]. Defined.

(** ** Exchanging the two sides negates the score *)

Lemma swap_color_inj c d : swap_color c = swap_color d ↔ c = d.
Proof. destruct c, d; split; (done || discriminate). Qed.

Lemma swap_flip_color c : c ≠ EMPTY → flip_color (swap_color c) = swap_color (flip_color c).
Proof. by destruct c. Qed.

Lemma swap_lookup (sqs : list piece) i :
  (swap_color <$> sqs) !!! i = swap_color (sqs !!! i).
Proof.
  revert i. induction sqs as [|x sqs IH]; intros i; [by rewrite !lookup_total_nil|].
  destruct i as [|i]; [done|]. apply IH.
Qed.

Lemma swap_lookup_eq (sqs : list piece) i c :
  (swap_color <$> sqs) !!! i = swap_color c ↔ sqs !!! i = c.
Proof. rewrite swap_lookup. apply swap_color_inj. Qed.

Lemma swap_pos_wf p : wf_pos p → wf_pos (swap_pos p).
Proof.
  intros [Hlen Hc]. split; cbn [swap_pos sq color].
  - by rewrite length_fmap.
  - by destruct (color p).
Qed.

Lemma swap_count_empty p : count_piece EMPTY (swap_pos p) = count_piece EMPTY p.
Proof.
  unfold count_piece. cbn [swap_pos sq].
  induction (sq p) as [|x sqs IH]; [done|].
  rewrite fmap_cons, !filter_cons.
  destruct x; cbn [swap_color]; repeat case_decide; simplify_eq; cbn [length];
    by rewrite ?IH.
Qed.

Lemma swap_checkmate_line sqs c line : ∀ ours,
  checkmate_line (swap_color <$> sqs) (swap_color c) line ours
  = checkmate_line sqs c line ours.
Proof.
  induction line as [|j line IH]; intros ours; [done|]. cbn [checkmate_line].
  rewrite IH. apply decide_ext, swap_lookup_eq.
Qed.

Lemma swap_checkmate p : color p ≠ EMPTY → checkmate (swap_pos p) = checkmate p.
Proof.
  intros Hc. unfold checkmate. cbn [swap_pos sq color].
  rewrite swap_flip_color by done.
  induction winning_squares as [|line lines IH]; [done|].
  cbn [checkmate_lines]. by rewrite swap_checkmate_line, IH.
Qed.

Lemma swap_board_empty p : board_empty (swap_pos p) = board_empty p.
Proof.
  unfold board_empty. cbn [swap_pos sq].
  induction (seq 0 SQUARES_MAX) as [|i idx IH]; [done|].
  cbn [board_empty_from]. rewrite IH.
  apply decide_ext. apply (swap_lookup_eq (sq p) i EMPTY).
Qed.

Lemma fold_left_ext_eq {A B} (f g : A → B → A) l :
  (∀ a x, f a x = g a x) → ∀ a, fold_left f l a = fold_left g l a.
Proof.
  intros Hfg. induction l as [|x l IH]; intros a; [done|].
  cbn [fold_left]. by rewrite Hfg, IH.
Qed.

Lemma swap_eval p : color p ≠ EMPTY → eval (swap_pos p) = eval p.
Proof.
  intros Hc. unfold eval. apply fold_left_ext_eq. intros pts line.
  unfold eval_line, eval_ours, eval_points. cbn [swap_pos sq color].
  rewrite swap_flip_color by done.
  rewrite (fold_left_ext_eq
    (λ ours j, if decide ((swap_color <$> sq p) !!! j = swap_color (color p))
               then ours + 1 else ours)
    (λ ours j, if decide (sq p !!! j = color p) then ours + 1 else ours))
    by (intros; apply decide_ext, swap_lookup_eq).
  destruct (_ >? 1); [|done].
  apply fold_left_ext_eq. intros a j.
  rewrite (decide_ext _ _ _ _ (swap_lookup_eq (sq p) j EMPTY)).
  by rewrite (decide_ext _ _ _ _ (swap_lookup_eq (sq p) j (flip_color (color p)))).
Qed.

Lemma swap_move_generate p mp : move_generate (swap_pos p) mp = move_generate p mp.
Proof.
  unfold move_generate. apply fold_left_ext_eq. intros ml i.
  unfold move_generate_step. cbn [swap_pos sq].
  apply decide_ext. apply (swap_lookup_eq (sq p) i EMPTY).
Qed.

Lemma swap_move_do p m :
  color p ≠ EMPTY → move_do (swap_pos p) m = swap_pos (move_do p m).
Proof.
  intros Hc. unfold move_do, swap_pos. cbn [sq color].
  by rewrite list_fmap_insert, swap_flip_color.
Qed.

Lemma MAX_opp a b : MAX (- a) (- b) = - MIN a b.
Proof. unfold MAX, MIN. destruct (Z.gtb_spec (- a) (- b)), (Z.gtb_spec a b); lia. Qed.

Lemma MIN_opp a b : MIN (- a) (- b) = - MAX a b.
Proof. unfold MAX, MIN. destruct (Z.gtb_spec (- a) (- b)), (Z.gtb_spec a b); lia. Qed.

Lemma fold_scores_swap c child child' cands : ∀ init,
  c ≠ EMPTY → (∀ m, m ∈ cands → child' m = - child m) →
  fold_scores (swap_color c) child' cands (- init)
  = - fold_scores c child cands init.
Proof.
  unfold fold_scores. induction cands as [|m cands IH]; intros init Hc Hch; [done|].
  cbn [fold_left]. rewrite (Hch m) by left.
  destruct c; [| |done]; cbn [swap_color];
    rewrite ?decide_True, ?decide_False by done.
  - rewrite MIN_opp. apply IH; [done|]. intros; apply Hch; by right.
  - rewrite MAX_opp. apply IH; [done|]. intros; apply Hch; by right.
Qed.

Lemma swap_minimax_score fuel : ∀ depth p,
  wf_pos p → enough_fuel fuel depth p →
  minimax_score fuel depth (swap_pos p) = - minimax_score fuel depth p.
Proof.
  induction fuel as [|fuel IH]; intros depth p Hwf Hf.
  { destruct Hf; lia. }
  pose proof (proj2 Hwf) as Hc.
  assert (enough_fuel (S fuel) depth (swap_pos p)) as Hf'.
  { destruct Hf; [by left|right]. by rewrite swap_count_empty. }
  rewrite !minimax_score_step by (done || by apply swap_pos_wf).
  rewrite swap_checkmate, swap_board_empty, swap_eval, swap_move_generate by done.
  cbn [swap_pos color].
  assert (∀ x y : Z, (if decide (swap_color (color p) = WHITE) then x else y)
                     = (if decide (color p = WHITE) then y else x)) as Hif.
  { intros x y. destruct (color p); [| |done]; by cbn. }
  rewrite !Hif. clear Hif.
  destruct (negb (checkmate p =? 0)); [case_decide; lia|].
  destruct (negb (board_empty p)); [done|].
  destruct (Z.eqb_spec depth 0) as [|Hd]; [case_decide; lia|].
  replace (if decide (color p = WHITE) then INF else - INF)
    with (- (if decide (color p = WHITE) then - INF else INF))
    by (case_decide; lia).
  fold (swap_pos p). apply fold_scores_swap; [done|].
  intros m Hm. rewrite swap_move_do by done.
  pose proof (generated_empty p m Hwf Hm) as Hl.
  apply IH; [by apply move_do_wf|]. by apply enough_fuel_child.
Qed.

(** X10: exchanging all WHITE and BLACK marks and the side to move negates
    the score of [minimax], at every depth. *)
Theorem minimax_swap_sides (p : board_pos) (n depth : Z) (fuel : nat) :
  wf_pos p → (9 < fuel)%nat →
  ∃ v n1 n2,
    minimax fuel depth (mk_state p n) = Ok v (mk_state p n1) ∧
    minimax fuel depth (mk_state (swap_pos p) n)
    = Ok (- v) (mk_state (swap_pos p) n2).
Proof.
  intros Hwf Hfuel.
  pose proof (enough_fuel_10 fuel depth p Hwf Hfuel) as Hf.
  destruct (minimax_returns fuel depth p n Hwf Hf) as [n1 H1].
  destruct (minimax_returns fuel depth (swap_pos p) n (swap_pos_wf p Hwf)
              (enough_fuel_10 _ _ _ (swap_pos_wf p Hwf) Hfuel)) as [n2 H2].
  exists (minimax_score fuel depth p), n1, n2. split; [done|].
  by rewrite H2, swap_minimax_score.
Qed.

Lemma minimax_swap_sides_witness :
  let p := mk_pos [WHITE; BLACK; WHITE; BLACK; WHITE; BLACK; BLACK; WHITE; EMPTY] WHITE in
  ∃ v n1 n2,
    minimax 10 1 (mk_state p 0) = Ok v (mk_state p n1) ∧
    minimax 10 1 (mk_state (swap_pos p) 0)
    = Ok (- v) (mk_state (swap_pos p) n2).
Proof.
  intros p. apply (minimax_swap_sides p 0 1 10).
  - split; [reflexivity | discriminate].
  - lia.
Defined.

(** ** Printing the move list *)






(** ** Printing the board *)

Lemma string_app_inj_l (s t1 t2 : string) : s +:+ t1 = s +:+ t2 → t1 = t2.
Proof. induction s as [|c s IH]; [done|]. simpl. intros [= H]. by apply IH. Qed.

Lemma string_app_cons c (s t : string) : String c s +:+ t = String c (s +:+ t).
Proof. reflexivity. Qed.

Lemma string_app_assoc (s t u : string) : (s +:+ t) +:+ u = s +:+ (t +:+ u).
Proof.
  induction s as [|c s IH]; [done|]. rewrite !string_app_cons. by rewrite IH.
Qed.

Lemma display_square_app_inj x y s t :
  display_square x +:+ s = display_square y +:+ t → x = y ∧ s = t.
Proof. destruct x, y; simpl; intros [= ?]; done. Qed.

Lemma display_board_loop_inj idx : ∀ sqs1 sqs2 e,
  display_board_loop sqs1 idx +:+ e = display_board_loop sqs2 idx +:+ e →
  ∀ i, i ∈ idx → sqs1 !!! i = sqs2 !!! i.
Proof.
  induction idx as [|j idx IH]; intros sqs1 sqs2 e Heq i Hi.
  { by apply elem_of_nil in Hi. }
  cbn [display_board_loop] in Heq. rewrite !string_app_assoc in Heq.
  apply (string_app_inj_l "| ") in Heq.
  apply display_square_app_inj in Heq as [Hj Heq].
  apply (string_app_inj_l " ") in Heq. apply string_app_inj_l in Heq.
  apply elem_of_cons in Hi as [->|Hi]; [done|]. by apply (IH _ _ e).
Qed.

(** X12: [display_board] shows the board faithfully: two boards that print
    the same hold the same marks on all nine squares. *)
Theorem display_board_inj (p q : board_pos) :
  length (sq p) = SQUARES_MAX → length (sq q) = SQUARES_MAX →
  display_board p = display_board q → sq p = sq q.
Proof.
  intros Hp Hq Heq. unfold display_board in Heq.
  do 2 apply string_app_inj_l in Heq.
  apply (list_eq_same_length _ _ SQUARES_MAX); [done..|].
  intros i x y Hi Hx Hy.
  pose proof (display_board_loop_inj _ _ _ _ Heq i) as H.
  rewrite (list_lookup_total_correct _ _ _ Hx),
          (list_lookup_total_correct _ _ _ Hy) in H.
  apply H, elem_of_seq. lia.
Qed.

Lemma display_board_inj_witness :
  sq start_pos = sq (mk_pos (replicate 9 EMPTY) BLACK).
Proof.
  apply (display_board_inj start_pos (mk_pos (replicate 9 EMPTY) BLACK)).
  - reflexivity.
  - reflexivity.
  - reflexivity.
Defined.

(** ** The prompt of [make_move] *)

Lemma square_of_char_range c m : square_of_char c = Some m → 0 ≤ m ≤ 8.
Proof.
  unfold square_of_char. repeat case_decide; intros [= <-]; lia.
Qed.

Lemma choose_square_spec p inp :
  match choose_square p inp with
  | Some (m, rest) =>
      ∃ skipped c, inp = skipped ++ c :: rest ∧ Forall (rejected p) skipped ∧
                   square_of_char c = Some m ∧ sq p !!! Z.to_nat m = EMPTY
  | None => Forall (rejected p) inp
  end.
Proof.
  induction inp as [|c inp IH]; cbn [choose_square]; [constructor|].
  destruct (square_of_char c) as [m|] eqn:Hc.
  - case_decide as He.
    + exists [], c. split_and!; [done | constructor | done | done].
    + assert (rejected p c) as Hrej by (intros m' Hm'; congruence).
      destruct (choose_square p inp) as [[m' rest]|].
      * destruct IH as (skipped & c' & -> & Hs & Hc' & He').
        exists (c :: skipped), c'. split_and!; [done | by constructor | done..].
      * by constructor.
  - assert (rejected p c) as Hrej by (intros m' Hm'; congruence).
    destruct (choose_square p inp) as [[m' rest]|].
    + destruct IH as (skipped & c' & -> & Hs & Hc' & He').
      exists (c :: skipped), c'. split_and!; [done | by constructor | done..].
    + by constructor.
Qed.

Lemma make_move_human_spec p n depth fuel inp :
  match make_move fuel true depth inp (mk_state p n) with
  | Played _ rest s' =>
      ∃ skipped c m,
        inp = skipped ++ c :: rest ∧ Forall (rejected p) skipped ∧
        square_of_char c = Some m ∧ 0 ≤ m ≤ 8 ∧
        sq p !!! Z.to_nat m = EMPTY ∧
        s' = mk_state (move_do p m) n
  | EndOfInput => Forall (rejected p) inp
  | GameAssertFail | GameOutOfFuel => False
  end.
Proof.
  unfold make_move. cbn [pos nodecount].
  pose proof (choose_square_spec p inp) as H.
  destruct (choose_square p inp) as [[m rest]|]; [|done].
  destruct H as (skipped & c & -> & Hs & Hc & He).
  pose proof (square_of_char_range _ _ Hc).
  exists skipped, c, m. split_and!; (done || lia).
Qed.

(** X13: a human move only ever fills an empty square 0-8: [make_move] skips
    every character that is not the digit of an empty square, plays the
    first one that is, and leaves the rest of the input and the node counter
    alone; if no such character comes, the prompt never returns. *)
Theorem make_move_human (p : board_pos) (n depth : Z) (fuel : nat)
    (inp : list ascii) :
  match make_move fuel true depth inp (mk_state p n) with
  | Played _ rest s' =>
      ∃ skipped c m,
        inp = skipped ++ c :: rest ∧ Forall (rejected p) skipped ∧
        square_of_char c = Some m ∧ 0 ≤ m ≤ 8 ∧
        sq p !!! Z.to_nat m = EMPTY ∧
        s' = mk_state (move_do p m) n
  | EndOfInput => Forall (rejected p) inp
  | GameAssertFail | GameOutOfFuel => False
  end.
Proof. apply make_move_human_spec. Qed.

(** ** A game from the first move to the verdict *)

(** What a call of [make_move] does to the position, for either player. *)
Lemma make_move_spec fuel human depth inp p n :
  wf_pos p → board_empty p = true → (9 < fuel)%nat →
  match make_move fuel human depth inp (mk_state p n) with
  | Played _ rest s' =>
      ∃ m, m ∈ generated (move_generate p mlist_uninit) ∧
           pos s' = move_do p m ∧
           (human = false →
            ∃ k, move_pick fuel depth (mk_state p n) = Ok m (mk_state p k))
  | EndOfInput => human = true
  | GameAssertFail | GameOutOfFuel => False
  end.
Proof.
  intros Hwf Hb Hfuel. destruct human.
  - pose proof (make_move_human_spec p n depth fuel inp) as H.
    destruct (make_move fuel true depth inp _) as [[] rest s'| | |]; try done.
    destruct H as (skipped & c & m & _ & _ & _ & Hr & He & ->).
    exists m. split_and!; [|done|done].
    apply elem_of_generated; [done|]. unfold SQUARES_MAX. split; [lia|done].
  - unfold make_move.
    destruct (move_pick_eq fuel depth p n Hwf Hb (enough_fuel_10 _ _ _ Hwf Hfuel))
      as (Hin & k & ->).
    eexists. split_and!; [exact Hin | done | eauto].
Qed.

Lemma flip_color_ne c : c ≠ EMPTY → flip_color c ≠ c.
Proof. by destruct c. Qed.

Lemma checkmate_0_1 p : checkmate p = 0 ∨ checkmate p = 1.
Proof. destruct (checkmate_lines_spec p) as [[|] _]; auto. Qed.

Lemma newgame_loop_spec fuel depth rounds : ∀ human inp s,
  wf_pos (pos s) → count_inv_white_first (pos s) → checkmate (pos s) = 0 →
  (count_piece EMPTY (pos s) ≤ rounds)%nat → (9 < fuel)%nat →
  match newgame_loop rounds fuel human depth inp s with
  | Played msgs rest s' =>
      wf_pos (pos s') ∧ count_inv_white_first (pos s') ∧
      (checkmate (pos s') = 1 ∧
       msgs = [ MsgWins (if decide (color (pos s') = WHITE)
                         then "Black (O)" else "White (X)");
                MsgWonBy (if (if decide (color (pos s') = color (pos s))
                              then human else negb human)
                          then "AI" else "You") ]
       ∨ checkmate (pos s') = 0 ∧ board_empty (pos s') = false ∧ msgs = [])
  | EndOfInput => True
  | GameAssertFail | GameOutOfFuel => False
  end.
Proof.
  induction rounds as [|rounds IH]; intros human inp [p n] Hwf Hinv Hnw Hc Hfuel;
    cbn [pos] in *; cbn [newgame_loop pos].
  - destruct (board_empty p) eqn:Hb.
    + pose proof (board_empty_count p (proj1 Hwf) Hb). lia.
    + cbn [pos]. split_and!; [done..|]. right. done.
  - destruct (board_empty p) eqn:Hb; [|cbn [pos]; split_and!; [done..|by right]].
    pose proof (make_move_spec fuel human depth inp p n Hwf Hb Hfuel) as Hmm.
    destruct (make_move fuel human depth inp _) as [[] inp' [p1 n1]| | |];
      [|done..].
    destruct Hmm as (m & Hm & Hp1 & _). cbn [pos] in *. subst p1.
    pose proof (generated_empty p m Hwf Hm) as Hl.
    pose proof (move_do_wf p m Hwf) as Hwf1.
    pose proof (move_do_count_inv_white_first p m Hl Hinv) as Hinv1.
    pose proof (count_empty_move_do p m Hl (proj2 Hwf)) as Hcnt.
    destruct (checkmate_0_1 (move_do p m)) as [H0|H1].
    + rewrite H0. cbn [Z.eqb negb].
      replace (if human then false else true) with (negb human) by by destruct human.
      specialize (IH (negb human) inp' (mk_state (move_do p m) n1)
                     Hwf1 Hinv1 H0 ltac:(cbn [pos]; lia) Hfuel).
      destruct (newgame_loop rounds fuel (negb human) depth inp' _)
        as [msgs rest [p' n']| | |]; [|done..].
      cbn [pos] in *. destruct IH as (Hwf' & Hinv' & Hres).
      split_and!; [done..|].
      destruct Hres as [[Hw ->]|?]; [left|by right]. split; [done|].
      do 3 f_equal. cbn [move_do color].
      pose proof (proj2 Hwf) as Hcp. pose proof (proj2 Hwf') as Hcp'.
      destruct (color p), (color p'), human; try done.
    + rewrite H1. cbn [Z.eqb negb pos]. split_and!; [done..|]. left.
      split; [done|]. do 3 f_equal. cbn [move_do color].
      rewrite decide_False by (by apply flip_color_ne, Hwf).
      by destruct human.
Qed.

Lemma start_pos_count_inv : count_inv_white_first start_pos.
Proof. left. split; reflexivity. Qed.

Lemma start_pos_not_won : checkmate start_pos = 0.
Proof. reflexivity. Qed.

(** *** What a game reads *)

Lemma choose_square_suffix p inp m rest :
  choose_square p inp = Some (m, rest) →
  rest `suffix_of` inp ∧ (length rest < length inp)%nat.
Proof.
  intros E. pose proof (choose_square_spec p inp) as H. rewrite E in H.
  destruct H as (skipped & c & -> & _). split.
  - exists (skipped ++ [c]). by rewrite <- app_assoc.
  - rewrite length_app. cbn [length]. lia.
Qed.

Lemma make_move_suffix fuel human depth inp s :
  match make_move fuel human depth inp s with
  | Played _ rest _ => rest `suffix_of` inp
  | _ => True
  end.
Proof.
  unfold make_move. destruct human.
  - destruct (choose_square (pos s) inp) as [[m rest]|] eqn:E; [|done].
    by apply choose_square_suffix in E as [? _].
  - by destruct (move_pick fuel depth s).
Qed.

Lemma newgame_loop_suffix fuel depth rounds : ∀ (human : bool) inp s,
  match newgame_loop rounds fuel human depth inp s with
  | Played _ rest _ => rest `suffix_of` inp
  | _ => True
  end.
Proof.
  induction rounds as [|rounds IH]; intros human inp s; cbn [newgame_loop];
    destruct (board_empty (pos s)); try done.
  pose proof (make_move_suffix fuel human depth inp s) as Hm.
  destruct (make_move fuel human depth inp s) as [[] inp' s'| | |]; [|done..].
  destruct (negb _); [done|].
  specialize (IH (if human then false else true) inp' s').
  destruct (newgame_loop rounds fuel _ depth inp' s'); [|done..].
  by etrans.
Qed.

Lemma newgame_suffix rounds fuel human depth inp n :
  match newgame rounds fuel human depth inp n with
  | Played _ rest _ => rest `suffix_of` inp
  | _ => True
  end.
Proof.
  unfold newgame.
  pose proof (newgame_loop_suffix fuel depth rounds human inp (mk_state start_pos n)).
  by destruct (newgame_loop rounds fuel human depth inp _).
Qed.

(** *** Input that serves every prompt *)

Lemma all_digits_spec m :
  0 ≤ m ≤ 8 → ∃ c, c ∈ all_digits ∧ square_of_char c = Some m.
Proof.
  intros Hm.
  assert (m = 0 ∨ m = 1 ∨ m = 2 ∨ m = 3 ∨ m = 4 ∨ m = 5 ∨ m = 6 ∨ m = 7 ∨ m = 8)
    as Hcases by lia.
  unfold all_digits.
  destruct Hcases as [->|[->|[->|[->|[->|[->|[->|[->| ->]]]]]]]];
    [ exists "0"%char | exists "1"%char | exists "2"%char | exists "3"%char
    | exists "4"%char | exists "5"%char | exists "6"%char | exists "7"%char
    | exists "8"%char ];
    (split; [rewrite !elem_of_cons; tauto | reflexivity]).
Qed.

Lemma sublist_app_drop {A} (k l inp : list A) :
  (k ++ l) `sublist_of` inp → l `sublist_of` inp.
Proof. intros H. etrans; [|exact H]. by apply sublist_inserts_l. Qed.

Lemma digit_rounds_S k : digit_rounds (S k) = all_digits ++ digit_rounds k.
Proof. reflexivity. Qed.

(** A prompt on a board with an empty square returns as soon as the input
    holds a digit of an empty square; what was to come after the digits is
    still to come. *)
Lemma choose_square_served p l : ∀ inp ds,
  (∃ c m, c ∈ ds ∧ square_of_char c = Some m ∧ sq p !!! Z.to_nat m = EMPTY) →
  (ds ++ l) `sublist_of` inp →
  ∃ m rest, choose_square p inp = Some (m, rest) ∧ l `sublist_of` rest.
Proof.
  induction inp as [|x inp IH]; intros ds (c & m & Hc & Hsq & He) Hsub.
  { apply sublist_nil_r, app_eq_nil in Hsub as [-> _]. by apply elem_of_nil in Hc. }
  assert (l `sublist_of` inp ∧
          (x = c ∨ ∃ ds', c ∈ ds' ∧ (ds' ++ l) `sublist_of` inp)) as [Hl Hnext].
  { apply sublist_cons_r in Hsub as [Hsub|(l' & Heq & Hsub)].
    - split; [by eapply sublist_app_drop|]. right. by exists ds.
    - destruct ds as [|d ds]; [by apply elem_of_nil in Hc|].
      injection Heq as -> <-. split; [by eapply sublist_app_drop|].
      apply elem_of_cons in Hc as [->|Hc]; [by left|]. right. by exists ds. }
  cbn [choose_square].
  destruct (square_of_char x) as [mx|] eqn:Hx.
  - case_decide as Hex; [by eauto|].
    destruct Hnext as [->|(ds' & Hc' & Hsub')]; [congruence|].
    apply (IH ds'); [|done]. by exists c, m.
  - destruct Hnext as [->|(ds' & Hc' & Hsub')]; [congruence|].
    apply (IH ds'); [|done]. by exists c, m.
Qed.

Lemma make_move_served fuel (human : bool) depth inp p n l :
  wf_pos p → board_empty p = true → (9 < fuel)%nat →
  (digit_rounds (if human then 1 else 0) ++ l) `sublist_of` inp →
  ∃ rest s', make_move fuel human depth inp (mk_state p n) = Played tt rest s' ∧
             l `sublist_of` rest.
Proof.
  intros Hwf Hb Hfuel Hsub. unfold make_move. cbn [pos nodecount]. destruct human.
  - apply board_empty_from_spec in Hb as (i & Hi & He).
    apply elem_of_seq in Hi. unfold SQUARES_MAX in Hi.
    destruct (all_digits_spec (Z.of_nat i) ltac:(lia)) as (c & Hc & Hsq).
    rewrite digit_rounds_S in Hsub. cbn [digit_rounds replicate concat] in Hsub.
    rewrite app_nil_r in Hsub.
    destruct (choose_square_served p l inp all_digits) as (m & rest & -> & Hl);
      [|done|by eauto].
    exists c, (Z.of_nat i). by rewrite Nat2Z.id.
  - destruct (move_pick_eq fuel depth p n Hwf Hb (enough_fuel_10 _ _ _ Hwf Hfuel))
      as (_ & k & ->).
    by eauto.
Qed.

(** A game whose input holds a round of digits for each move the human may
    still have to make comes to its end. *)
Lemma newgame_loop_served fuel depth rounds : ∀ (human : bool) inp s k l,
  wf_pos (pos s) → (count_piece EMPTY (pos s) ≤ rounds)%nat → (9 < fuel)%nat →
  (count_piece EMPTY (pos s) ≤ 2 * k + (if human then 0 else 1))%nat →
  (digit_rounds k ++ l) `sublist_of` inp →
  ∃ msgs rest s', newgame_loop rounds fuel human depth inp s = Played msgs rest s' ∧
                  l `sublist_of` rest.
Proof.
  induction rounds as [|rounds IH]; intros human inp [p n] k l Hwf Hc Hfuel Hk Hsub;
    cbn [pos] in *; cbn [newgame_loop pos].
  - destruct (board_empty p) eqn:Hb.
    + pose proof (board_empty_count p (proj1 Hwf) Hb). lia.
    + eexists _, _, _. split; [done|]. by eapply sublist_app_drop.
  - destruct (board_empty p) eqn:Hb;
      [|eexists _, _, _; split; [done|]; by eapply sublist_app_drop].
    pose proof (board_empty_count p (proj1 Hwf) Hb) as Hpos.
    set (k' := if human then pred k else k).
    assert (digit_rounds k ++ l
            = digit_rounds (if human then 1 else 0) ++ digit_rounds k' ++ l) as Hsplit.
    { unfold k'. destruct human; [|done]. destruct k as [|k]; [lia|].
      rewrite digit_rounds_S. cbn [pred digit_rounds replicate concat].
      by rewrite app_nil_r, <- app_assoc. }
    rewrite Hsplit in Hsub.
    destruct (make_move_served fuel human depth inp p n _ Hwf Hb Hfuel Hsub)
      as (rest & [p1 n1] & Hmm & Hrest).
    pose proof (make_move_spec fuel human depth inp p n Hwf Hb Hfuel) as Hspec.
    rewrite Hmm in Hspec |- *. destruct Hspec as (m & Hm & Hp1 & _).
    cbn [pos] in *. subst p1.
    destruct (negb _).
    { eexists _, _, _. split; [done|]. by eapply sublist_app_drop. }
    pose proof (generated_empty p m Hwf Hm) as Hl.
    pose proof (count_empty_move_do p m Hl (proj2 Hwf)) as Hcnt.
    apply (IH _ _ _ k'); cbn [pos]; [by apply move_do_wf|lia|done| |done].
    unfold k'. destruct human; lia.
Qed.

Lemma newgame_served r f (human : bool) depth inp n l :
  (digit_rounds (if human then 5 else 4) ++ l) `sublist_of` inp →
  ∃ msgs rest s', newgame (9 + r) (10 + f) human depth inp n = Played msgs rest s' ∧
                  l `sublist_of` rest.
Proof.
  intros Hsub. unfold newgame.
  assert (count_piece EMPTY start_pos = 9%nat) as H9 by reflexivity.
  destruct (newgame_loop_served (10 + f) depth (9 + r) human inp
              (mk_state start_pos n) (if human then 5 else 4)%nat l)
    as (msgs & rest & s' & -> & Hl); cbn [pos];
    [apply start_pos_wf | lia | lia | destruct human; lia | done | eauto].
Qed.

(** X14: a game either comes to a verdict or stops at a prompt that reads
    to the end of the input, and it comes to a verdict whenever the input
    holds, in this order and with anything in between, the nine digits once
    for every move the human may have to make (five times when the human
    moves first, four times otherwise).  No assertion fails, nine rounds
    are enough, the final position satisfies the count invariant, and
    exactly one verdict is printed: a draw on a full board without a line,
    or the winner, who is announced as "You" exactly when the winning side
    is the one the human played. *)
Theorem newgame_verdict (r f : nat) (human : bool) (depth n : Z)
    (inp : list ascii) :
  match newgame (9 + r) (10 + f) human depth inp n with
  | Played msgs rest s' =>
      rest `suffix_of` inp ∧
      wf_pos (pos s') ∧ count_inv_white_first (pos s') ∧
      (checkmate (pos s') = 1 ∧ color (pos s') = BLACK ∧
       msgs = [MsgWins "White (X)"; MsgWonBy (if human then "You" else "AI")]
       ∨ checkmate (pos s') = 1 ∧ color (pos s') = WHITE ∧
         msgs = [MsgWins "Black (O)"; MsgWonBy (if human then "AI" else "You")]
       ∨ checkmate (pos s') = 0 ∧ board_empty (pos s') = false ∧
         msgs = [MsgDraw])
  | EndOfInput => ¬ digit_rounds (if human then 5 else 4) `sublist_of` inp
  | GameAssertFail | GameOutOfFuel => False
  end.
Proof.
  pose proof (newgame_served r f human depth inp n []) as Hlive.
  rewrite app_nil_r in Hlive.
  pose proof (newgame_suffix (9 + r) (10 + f) human depth inp n) as Hsuffix.
  unfold newgame in *.
  pose proof (newgame_loop_spec (10 + f) depth (9 + r) human inp
                (mk_state start_pos n) start_pos_wf start_pos_count_inv
                start_pos_not_won) as H.
  cbn [pos] in H. specialize (H ltac:(pose proof (count_empty_le start_pos eq_refl); lia)
                                ltac:(lia)).
  destruct (newgame_loop (9 + r) (10 + f) human depth inp _)
    as [msgs rest [p' n']| | |]; [|done|done|].
  - cbn [pos] in *. destruct H as (Hwf' & Hinv' & Hres).
    split_and!; [done..|].
    destruct Hres as [[Hw ->]|(H0 & Hb & ->)].
    + rewrite Hw. cbn [Z.eqb negb]. rewrite app_nil_r.
      change (color start_pos) with WHITE.
      destruct (color p') eqn:Hc; [| |by destruct Hwf'].
      * right; left. split_and!; [done..|]. rewrite !decide_True by done.
        by destruct human.
      * left. split_and!; [done..|]. rewrite !decide_False by done.
        by destruct human.
    + rewrite H0. cbn [Z.eqb negb]. right; right. done.
  - intros Hsub. by destruct (Hlive Hsub) as (? & ? & ? & ? & _).
Qed.

Lemma newgame_verdict_witness :
  ∃ rest s',
    newgame (9 + 0) (10 + 0) true 1 (digit_rounds 5) 0
    = Played [MsgWins "White (X)"; MsgWonBy "You"] rest s' ∧
    rest `suffix_of` digit_rounds 5 ∧
    checkmate (pos s') = 1 ∧ color (pos s') = BLACK.
Proof.
  pose proof (newgame_verdict 0 0 true 1 0 (digit_rounds 5)) as H.
  assert (∃ rest s', newgame (9 + 0) (10 + 0) true 1 (digit_rounds 5) 0
                     = Played [MsgWins "White (X)"; MsgWonBy "You"] rest s')
    as (rest & s' & E) by (eexists _, _; vm_compute; reflexivity).
  rewrite E in H. exists rest, s'. split; [exact E|].
  destruct H as (Hsuf & _ & _ & [(Hw & Hc & _)|[(_ & _ & Hm)|(_ & _ & Hm)]]);
    [by split_and!|discriminate Hm..].
Defined.

(** ** The exhaustive player never loses *)

Lemma mover_value_won q :
  wf_pos q → checkmate q ≠ 0 → mover_value q = - INF.
Proof.
  intros Hwf Hw. unfold mover_value. rewrite (full_score_step q Hwf).
  destruct (Z.eqb_spec (checkmate q) 0); [done|]. cbn [negb].
  case_decide; lia.
Qed.

Lemma generated_board_empty p m :
  wf_pos p → m ∈ generated (move_generate p mlist_uninit) →
  board_empty p = true.
Proof.
  intros Hwf [Hr He]%elem_of_generated; [|done].
  apply board_empty_from_spec. exists (Z.to_nat m). split; [|done].
  apply elem_of_seq. lia.
Qed.

(** No move can leave the opponent worse off than best play allows. *)
Lemma mover_value_child p m :
  wf_pos p → checkmate p = 0 →
  m ∈ generated (move_generate p mlist_uninit) →
  - mover_value p ≤ mover_value (move_do p m).
Proof.
  intros Hwf Hnw Hm. pose proof (generated_board_empty p m Hwf Hm) as Hb.
  unfold mover_value. rewrite (full_score_step p Hwf), Hnw, Hb. cbn [Z.eqb negb].
  destruct (fold_scores_not_worse (color p) (λ m, full_score (move_do p m))
              (generated (move_generate p mlist_uninit))
              (if decide (color p = WHITE) then - INF else INF)) as [_ Hall].
  specialize (Hall m Hm). cbn beta in Hall. unfold better in Hall.
  cbn [move_do color]. pose proof (proj2 Hwf) as Hne.
  destruct (color p) eqn:Hc; [| |done]; flip_simpl;
    repeat case_decide; try done; lia.
Qed.

(** With a search to the end of the game, [move_pick] keeps the value. *)
Lemma move_pick_exhaustive fuel depth p n :
  wf_pos p → checkmate p = 0 → board_empty p = true → (9 < fuel)%nat →
  depth < 0 ∨ 8 ≤ depth →
  ∃ m n', move_pick fuel depth (mk_state p n) = Ok m (mk_state p n') ∧
          m ∈ generated (move_generate p mlist_uninit) ∧
          full_score (move_do p m) = full_score p.
Proof.
  intros Hwf Hnw Hb Hfuel Hd.
  destruct (move_pick_eq fuel depth p n Hwf Hb (enough_fuel_10 _ _ _ Hwf Hfuel))
    as (Hin & n' & Hrun).
  pose proof (move_pick_score fuel depth p Hwf Hb) as Hscore. cbv zeta in Hscore.
  set (m := (fold_left _ _ _).1) in *.
  exists m, n'. split_and!; [done..|].
  assert (∀ c, c ∈ generated (move_generate p mlist_uninit) →
               minimax_score fuel depth (move_do p c) = full_score (move_do p c))
    as Hex.
  { intros c Hc. pose proof (generated_empty p c Hwf Hc) as Hl.
    pose proof (count_empty_move_do p c Hl (proj2 Hwf)) as Hcnt.
    pose proof (count_empty_le p (proj1 Hwf)).
    apply minimax_score_exhaustive; [by apply move_do_wf | lia | lia]. }
  rewrite <- (Hex m Hin), Hscore.
  rewrite (full_score_step p Hwf), Hnw, Hb. cbn [Z.eqb negb].
  by apply fold_scores_ext.
Qed.

Lemma mover_value_flip p m v :
  wf_pos p → full_score (move_do p m) = v → full_score p = v →
  mover_value (move_do p m) = - mover_value p.
Proof.
  intros Hwf H1 H2. unfold mover_value. rewrite H1, H2. cbn [move_do color].
  pose proof (proj2 Hwf) as Hne.
  destruct (color p) eqn:Hc; [| |done]; flip_simpl;
    repeat case_decide; try done; lia.
Qed.

Lemma newgame_loop_safe fuel depth rounds : ∀ (human : bool) inp s,
  wf_pos (pos s) → checkmate (pos s) = 0 →
  (count_piece EMPTY (pos s) ≤ rounds)%nat → (9 < fuel)%nat →
  depth < 0 ∨ 8 ≤ depth →
  (if human then mover_value (pos s) ≤ 0 else 0 ≤ mover_value (pos s)) →
  match newgame_loop rounds fuel human depth inp s with
  | Played msgs _ _ => MsgWonBy "You" ∉ msgs
  | EndOfInput => True
  | GameAssertFail | GameOutOfFuel => False
  end.
Proof.
  induction rounds as [|rounds IH];
    intros human inp [p n] Hwf Hnw Hc Hfuel Hd Hval;
    cbn [pos] in *; cbn [newgame_loop pos].
  - destruct (board_empty p) eqn:Hb; [|by intros ?%elem_of_nil].
    pose proof (board_empty_count p (proj1 Hwf) Hb). lia.
  - destruct (board_empty p) eqn:Hb; [|by intros ?%elem_of_nil].
    pose proof (make_move_spec fuel human depth inp p n Hwf Hb Hfuel) as Hmm.
    destruct (make_move fuel human depth inp _) as [[] inp' [p1 n1]| | |];
      [|done..].
    destruct Hmm as (m & Hm & Hp1 & Hai). cbn [pos] in *. subst p1.
    pose proof (generated_empty p m Hwf Hm) as Hl.
    pose proof (move_do_wf p m Hwf) as Hwf1.
    pose proof (count_empty_move_do p m Hl (proj2 Hwf)) as Hcnt.
    pose proof (mover_value_child p m Hwf Hnw Hm) as Hchild.
    assert (human = false → mover_value (move_do p m) = - mover_value p) as Hkeep.
    { intros Hh. destruct (Hai Hh) as [k Hk].
      destruct (move_pick_exhaustive fuel depth p n Hwf Hnw Hb Hfuel Hd)
        as (m' & n' & Hrun & _ & Hfs).
      rewrite Hk in Hrun. injection Hrun as <- _.
      by apply (mover_value_flip p m (full_score p)). }
    destruct (Z.eqb_spec (checkmate (move_do p m)) 0) as [H0|H1]; cbn [negb].
    + replace (if human then false else true) with (negb human) by by destruct human.
      apply IH; [done | done | cbn [pos]; lia | done | done |]. cbn [pos].
      destruct human; cbn [negb]; [lia|]. rewrite Hkeep by done. lia.
    + pose proof (mover_value_won _ Hwf1 H1) as Hlost. unfold INF in Hlost.
      destruct human; [lia|].
      rewrite !elem_of_cons, elem_of_nil. intros [|[|[]]]; discriminate.
Qed.

Lemma mover_value_start : mover_value start_pos = 0.
Proof.
  unfold mover_value. change (color start_pos) with WHITE.
  rewrite decide_True by done. exact full_score_start.
Qed.

(** X15: with a search that reaches the end of the game (depth 9, the
    hard level, and every depth from 8 upwards or below 0), the program
    never loses: whoever moves first and whatever the human types, a game
    that comes to its verdict never announces "You won the game!", and no
    assertion fails on the way. *)
Theorem newgame_never_lost (r f : nat) (human : bool) (depth n : Z)
    (inp : list ascii) :
  depth < 0 ∨ 8 ≤ depth →
  match newgame (9 + r) (10 + f) human depth inp n with
  | Played msgs _ _ => MsgWonBy "You" ∉ msgs
  | EndOfInput => True
  | GameAssertFail | GameOutOfFuel => False
  end.
Proof.
  intros Hd. unfold newgame.
  pose proof (newgame_loop_safe (10 + f) depth (9 + r) human inp
                (mk_state start_pos n) start_pos_wf start_pos_not_won) as H.
  cbn [pos] in H.
  specialize (H ltac:(pose proof (count_empty_le start_pos eq_refl); lia)
                ltac:(lia) Hd).
  rewrite mover_value_start in H. specialize (H ltac:(by destruct human)).
  destruct (newgame_loop (9 + r) (10 + f) human depth inp _)
    as [msgs rest s'| | |]; [|done..].
  rewrite elem_of_app. intros [?|Hin]; [done|].
  destruct (negb _); [by apply elem_of_nil in Hin|].
  apply list_elem_of_singleton in Hin. discriminate.
Qed.

Lemma newgame_never_lost_witness :
  let verdict := [MsgWins "Black (O)"; MsgWonBy "AI"] in
  (9 < 0 ∨ 8 ≤ 9) ∧
  ∃ rest s',
    newgame (9 + 0) (10 + 0) true 9 (digit_rounds 5) 0 = Played verdict rest s' ∧
    MsgWonBy "You" ∉ verdict.
Proof.
  intros verdict.
  assert (9 < 0 ∨ 8 ≤ 9) as Hd by (right; lia).
  split; [exact Hd|].
  pose proof (newgame_never_lost 0 0 true 9 0 (digit_rounds 5) Hd) as Hsafe.
  assert (∃ rest s', newgame (9 + 0) (10 + 0) true 9 (digit_rounds 5) 0
                     = Played verdict rest s')
    as (rest & s' & Hrun) by (eexists _, _; vm_compute; reflexivity).
  exists rest, s'. split; [exact Hrun|].
  rewrite Hrun in Hsafe. exact Hsafe.
Defined.

(** ** The node count [move_pick] reports *)

Lemma move_pick_loop_nodes fuel depth p acc0 :
  wf_pos p → (9 < fuel)%nat →
  let ml := move_generate p mlist_uninit in
  post (for_loop (seq 0 (moves ml)) (move_pick_body (minimax fuel depth) ml) acc0)
       (mk_state p 0)
       (λ _ t, nodecount t =
               fold_left (λ a c, a + minimax_nodes fuel depth (move_do p c))
                         (generated ml) 0 mod 2 ^ 32).
Proof.
  intros Hwf Hfuel ml.
  set (f := λ c, minimax_nodes fuel depth (move_do p c)).
  pose proof (for_loop_post
    (λ k (_ : Z * Z) t, pos t = p ∧
       nodecount t = fold_left (λ a c, a + f c) (take k (generated ml)) 0
                     mod 2 ^ 32)
    (move_pick_body (minimax fuel depth) ml) 0 (moves ml) acc0 (mk_state p 0))
    as Hloop.
  cbn beta in Hloop. rewrite Nat.add_0_l in Hloop.
  assert (take (moves ml) (generated ml) = generated ml) as Htake.
  { unfold generated. rewrite take_take. f_equal. lia. }
  rewrite Htake in Hloop. unfold post in *.
  destruct (for_loop _ _ _ _) as [acc t| |]; [|done..].
  apply Hloop; clear Hloop; [done|].
  intros k acc1 s1 Hk [Hp Hn]. rewrite move_pick_body_eq. cbv zeta.
  destruct (generated_candidate p k Hwf ltac:(fold ml; lia)) as (Hg & Hr & He).
  fold ml in Hg, Hr, He. set (m := move ml !!! k) in *.
  rewrite Hp.
  rewrite minimax_run
    by (by apply move_do_wf || apply enough_fuel_10; by try apply move_do_wf).
  cbn [pos nodecount]. rewrite (move_undo_move_do p m (proj2 Hwf) He).
  split; [done|].
  rewrite (take_S_r _ _ _ Hg), fold_left_app. cbn [fold_left].
  rewrite Hn. fold (f m). by rewrite Z.add_mod_idemp_l by lia.
Qed.

(** X16: [move_pick] starts counting afresh: the node counter it leaves is
    the number of [minimax] calls of this selection alone, whatever the
    counter held before; it is at least the number of candidate moves and
    at most 986409, so it never wraps around. *)
Theorem move_pick_counts_nodes (p : board_pos) (n depth : Z) (fuel : nat) :
  wf_pos p → board_empty p = true → (9 < fuel)%nat →
  let cands := generated (move_generate p mlist_uninit) in
  let N := fold_left (λ a c, a + minimax_nodes fuel depth (move_do p c)) cands 0 in
  (∃ m, move_pick fuel depth (mk_state p n) = Ok m (mk_state p N)) ∧
  Z.of_nat (length cands) ≤ N ≤ 986409.
Proof.
  intros Hwf Hb Hfuel cands N.
  assert (Z.of_nat (length cands) ≤ N ≤ 986409) as Hbounds.
  { pose proof (sum_fold_bounds (λ c, minimax_nodes fuel depth (move_do p c))
                  (nodes_bound 8) cands 0) as Hsum.
    fold N in Hsum. destruct Hsum as [Hlo Hhi].
    - intros c Hc. pose proof (generated_empty p c Hwf Hc) as Hl.
      pose proof (count_empty_move_do p c Hl (proj2 Hwf)) as Hcnt.
      pose proof (count_empty_le p (proj1 Hwf)).
      destruct fuel as [|fuel]; [lia|].
      pose proof (minimax_nodes_bounds fuel depth (move_do p c)
                    (move_do_wf p c Hwf)) as Hn.
      pose proof (nodes_bound_mono (count_piece EMPTY (move_do p c)) 8 ltac:(lia)).
      lia.
    - unfold cands in *. rewrite generated_length in * by done.
      pose proof (count_empty_le p (proj1 Hwf)).
      change (nodes_bound 8) with 109601 in Hhi. nia. }
  split; [|done].
  destruct (move_pick_eq fuel depth p n Hwf Hb (enough_fuel_10 _ _ _ Hwf Hfuel))
    as (_ & n' & Hrun).
  eexists. rewrite Hrun. do 2 f_equal.
  rewrite move_pick_unfold in Hrun. cbv zeta in Hrun. cbn [pos] in Hrun.
  pose proof (move_pick_loop_nodes fuel depth p
    (move (move_generate p mlist_uninit) !!! 0%nat,
     if decide (color p = WHITE) then - INF else INF) Hwf Hfuel) as Hloop.
  cbv zeta in Hloop. unfold post in Hloop.
  destruct (for_loop _ _ _ _) as [acc t| |]; [|done..].
  destruct (acc.1 <? _); [|done]. destruct (bool_decide _); [|done].
  injection Hrun as _ ->. cbn [nodecount] in Hloop. rewrite Hloop.
  fold cands. fold N. apply Z.mod_small. lia.
Qed.

Lemma move_pick_counts_nodes_witness :
  let p := mk_pos [WHITE; BLACK; WHITE; BLACK; WHITE; BLACK; BLACK; WHITE; EMPTY] WHITE in
  let cands := generated (move_generate p mlist_uninit) in
  let N := fold_left (λ a c, a + minimax_nodes 10 1 (move_do p c)) cands 0 in
  (∃ m, move_pick 10 1 (mk_state p 5) = Ok m (mk_state p N)) ∧
  Z.of_nat (length cands) ≤ N ≤ 986409.
Proof.
  intros p. apply (move_pick_counts_nodes p 5 1 10).
  - split; [reflexivity | discriminate].
  - reflexivity.
  - lia.
Defined.

(** ** A whole session *)

Lemma difficulty_choice_range c depth :
  difficulty_choice c = Some depth → depth = 9 ∨ depth = 3 ∨ depth = 1.
Proof.
  unfold difficulty_choice. repeat case_decide; intros [= <-]; auto.
Qed.

Lemma read_menu_accepts {A} (choice : ascii → option A) inp a rest :
  read_menu choice inp = Some (a, rest) →
  ∃ skipped c, inp = skipped ++ c :: rest ∧ choice c = Some a ∧
               Forall (λ c, choice c = None) skipped.
Proof.
  induction inp as [|c inp IH]; [done|]. cbn [read_menu].
  destruct (choice c) as [a'|] eqn:Hc.
  - intros [= -> ->]. exists [], c. by split_and!.
  - intros (skipped & c' & -> & Hc' & Hs)%IH.
    exists (c :: skipped), c'. split_and!; [done..|by constructor].
Qed.

Lemma read_menu_suffix {A} (choice : ascii → option A) inp a rest :
  read_menu choice inp = Some (a, rest) →
  rest `suffix_of` inp ∧ (length rest < length inp)%nat.
Proof.
  intros (skipped & c & -> & _)%read_menu_accepts. split.
  - exists (skipped ++ [c]). by rewrite <- app_assoc.
  - rewrite length_app. cbn [length]. lia.
Qed.

(** A menu does not depend on the input it does not read. *)
Lemma read_menu_app {A} (choice : ascii → option A) inp more :
  read_menu choice (inp ++ more) =
  match read_menu choice inp with
  | Some (a, rest) => Some (a, rest ++ more)
  | None => read_menu choice more
  end.
Proof.
  induction inp as [|c inp IH]; [done|]. cbn [app read_menu].
  by destruct (choice c).
Qed.

Lemma suffix_app_cases {A} (l a b : list A) :
  l `suffix_of` a ++ b → (∃ t, l = t ++ b ∧ t `suffix_of` a) ∨ l `suffix_of` b.
Proof.
  induction a as [|x a IH]; [by right|]. intros [[|y k] Hk].
  - left. exists (x :: a). by rewrite Hk.
  - injection Hk as -> Hk.
    destruct (IH ltac:(by exists k)) as [(t & -> & Ht)|?]; [|by right].
    left. exists t. split; [done|]. by apply suffix_cons_r.
Qed.

(** At the replay menu, input without a [y] that holds an [n] ends the
    session. *)
Lemma read_replay_exit inp :
  Forall (λ c, c ≠ "y"%char) inp → "n"%char ∈ inp →
  ∃ rest, read_menu newgame_choice inp = Some (false, rest).
Proof.
  induction 1 as [|c inp Hc _ IH]; intros Hn; [by apply elem_of_nil in Hn|].
  cbn [read_menu]. unfold newgame_choice at 1.
  rewrite decide_False by done. case_decide; [by eauto|].
  apply elem_of_cons in Hn as [<-|Hn]; [done|]. by apply IH.
Qed.

Lemma session_exit_no_y : Forall (λ c, c ≠ "y"%char) session_exit.
Proof. repeat (constructor; [discriminate|]). constructor. Qed.

Lemma replay_in_session_exit rest :
  rest `suffix_of` session_exit → ["n"%char] `sublist_of` rest →
  ∃ rest', read_menu newgame_choice rest = Some (false, rest').
Proof.
  intros [k Hk] Hn. apply read_replay_exit.
  - pose proof session_exit_no_y as H. rewrite Hk in H.
    by apply Forall_app in H as [_ ?].
  - eapply elem_of_sublist; [|exact Hn]. by apply list_elem_of_singleton.
Qed.

(** Whatever was typed before, the keys of [session_exit] bring the
    session to its end. *)
Lemma game_loop_exit r f : ∀ games inp n,
  (length inp < games)%nat →
  ∃ log rest s,
    game_loop games (9 + r) (10 + f) (inp ++ session_exit) n = (log, Played tt rest s).
Proof.
  induction games as [|games IH]; intros inp n Hlen; [lia|].
  assert (∀ human depth cur,
            (digit_rounds 5 ++ ["n"%char]) `sublist_of` cur →
            (∃ pre, cur = pre ++ session_exit ∧ (length pre ≤ length inp)%nat) ∨
            cur `suffix_of` session_exit →
            ∃ log rest s,
              match newgame (9 + r) (10 + f) human depth cur n with
              | Played msgs inp3 s' =>
                  match read_menu newgame_choice inp3 with
                  | None => ([(depth, msgs)], EndOfInput)
                  | Some (again, inp4) =>
                      if again then
                        let (log, ending) :=
                          game_loop games (9 + r) (10 + f) inp4 (nodecount s') in
                        ((depth, msgs) :: log, ending)
                      else ([(depth, msgs)], Played tt inp4 s')
                  end
              | GameAssertFail => ([], GameAssertFail)
              | GameOutOfFuel => ([], GameOutOfFuel)
              | EndOfInput => ([], EndOfInput)
              end = (log, Played tt rest s)) as Hgame.
  { intros human depth cur Hserved Hcur.
    destruct (newgame_served r f human depth cur n ["n"%char])
      as (msgs & inp3 & s' & Hrun & Hn).
    { destruct human; [done|]. etrans; [|exact Hserved].
      rewrite (digit_rounds_S 4), <- app_assoc. by apply sublist_inserts_l. }
    pose proof (newgame_suffix (9 + r) (10 + f) human depth cur n) as Hsuf.
    rewrite Hrun in Hsuf |- *.
    assert ((∃ t, inp3 = t ++ session_exit ∧ (length t ≤ length inp)%nat) ∨
            inp3 `suffix_of` session_exit) as [(t & -> & Ht)|Hin].
    { destruct Hcur as [(pre & -> & Hpre)|Hcur]; [|right; by etrans].
      apply suffix_app_cases in Hsuf as [(t & -> & Ht)|?]; [|by right].
      left. exists t. split; [done|]. apply suffix_length in Ht. lia. }
    - rewrite read_menu_app.
      destruct (read_menu newgame_choice t) as [[again t']|] eqn:E3.
      + apply read_menu_suffix in E3 as [_ Hlt]. destruct again; [|by eauto].
        destruct (IH t' (nodecount s') ltac:(lia)) as (log & rest & s'' & ->).
        by eauto.
      + assert (read_menu newgame_choice session_exit
                = Some (false, tail session_exit)) as -> by reflexivity.
        by eauto.
    - destruct (replay_in_session_exit inp3 Hin Hn) as [rest' ->]. by eauto. }
  assert (read_menu move_first_choice session_exit
          = Some (false, "h"%char :: digit_rounds 5 ++ ["n"%char])) as Hmenu1
    by reflexivity.
  assert (∀ l, read_menu difficulty_choice ("h"%char :: l) = Some (9, l)) as Hmenu2
    by reflexivity.
  assert (read_menu difficulty_choice session_exit
          = Some (9, digit_rounds 5 ++ ["n"%char])) as Hmenu2'
    by reflexivity.
  cbn [game_loop]. rewrite read_menu_app.
  destruct (read_menu move_first_choice inp) as [[human inp1]|] eqn:E1.
  - apply read_menu_suffix in E1 as [_ Hl1]. rewrite read_menu_app.
    destruct (read_menu difficulty_choice inp1) as [[depth inp2]|] eqn:E2.
    + apply read_menu_suffix in E2 as [_ Hl2]. apply Hgame.
      * unfold session_exit. by do 2 apply sublist_inserts_l.
      * left. exists inp2. split; [done|lia].
    + rewrite Hmenu2'. cbv beta iota.
      apply Hgame; [reflexivity|]. right. by exists ["n"; "h"]%char.
  - rewrite Hmenu1. cbv beta iota. rewrite Hmenu2. cbv beta iota.
    apply Hgame; [reflexivity|]. right. by exists ["n"; "h"]%char.
Qed.

Lemma newgame_one_verdict r f human depth inp n :
  match newgame (9 + r) (10 + f) human depth inp n with
  | Played msgs _ _ =>
      (∃ side who, msgs = [MsgWins side; MsgWonBy who]) ∨ msgs = [MsgDraw]
  | EndOfInput => True
  | GameAssertFail | GameOutOfFuel => False
  end.
Proof.
  unfold newgame.
  pose proof (newgame_loop_spec (10 + f) depth (9 + r) human inp
                (mk_state start_pos n) start_pos_wf start_pos_count_inv
                start_pos_not_won) as H.
  cbn [pos] in H. specialize (H ltac:(pose proof (count_empty_le start_pos eq_refl); lia)
                                ltac:(lia)).
  destruct (newgame_loop (9 + r) (10 + f) human depth inp _)
    as [msgs rest [p' n']| | |]; [|done..].
  cbn [pos] in *. destruct H as (_ & _ & [[Hw ->]|(H0 & _ & ->)]).
  - rewrite Hw. cbn [Z.eqb negb]. rewrite app_nil_r. left. eauto.
  - rewrite H0. cbn [Z.eqb negb]. by right.
Qed.

Lemma newgame_safe r f human depth inp n :
  depth < 0 ∨ 8 ≤ depth →
  match newgame (9 + r) (10 + f) human depth inp n with
  | Played msgs _ _ => MsgWonBy "You" ∉ msgs
  | EndOfInput => True
  | GameAssertFail | GameOutOfFuel => False
  end.
Proof.
  intros Hd. unfold newgame.
  pose proof (newgame_loop_safe (10 + f) depth (9 + r) human inp
                (mk_state start_pos n) start_pos_wf start_pos_not_won) as H.
  cbn [pos] in H.
  specialize (H ltac:(pose proof (count_empty_le start_pos eq_refl); lia)
                ltac:(lia) Hd).
  rewrite mover_value_start in H. specialize (H ltac:(by destruct human)).
  destruct (newgame_loop (9 + r) (10 + f) human depth inp _)
    as [msgs rest s'| | |]; [|done..].
  rewrite elem_of_app. intros [?|Hin]; [done|].
  destruct (negb _); [by apply elem_of_nil in Hin|].
  apply list_elem_of_singleton in Hin. discriminate.
Qed.

(** X17: in a whole session of [game_loop], whatever is typed and however
    the session ends, no assertion fails, and every game that was played
    to its end, those before a prompt that reads to the end of the input
    included, was started at depth 9, 3 or 1 and ended with exactly one
    verdict, which at depth 9 is never "You won the game!".  A session that
    is left has played at least one game and read at least three
    characters for each.  And a session can always be left: whatever was
    typed so far, the keys [n], [h], five rounds of the nine digits and [n]
    bring it to "Goodbye!". *)
Theorem game_loop_session (games r f : nat) (inp : list ascii) (n : Z) :
  (let (log, ending) := game_loop games (9 + r) (10 + f) inp n in
   (length log ≤ games)%nat ∧
   (∀ depth msgs, (depth, msgs) ∈ log →
      (depth = 9 ∨ depth = 3 ∨ depth = 1) ∧
      ((∃ side who, msgs = [MsgWins side; MsgWonBy who]) ∨ msgs = [MsgDraw]) ∧
      (depth = 9 → MsgWonBy "You" ∉ msgs)) ∧
   match ending with
   | Played _ rest _ =>
       (0 < length log)%nat ∧ (length rest + 3 * length log ≤ length inp)%nat
   | EndOfInput => (2 * length log ≤ length inp)%nat
   | GameOutOfFuel => length log = games ∧ (3 * games ≤ length inp)%nat
   | GameAssertFail => False
   end) ∧
  ((length inp < games)%nat →
   ∃ log rest s,
     game_loop games (9 + r) (10 + f) (inp ++ session_exit) n
     = (log, Played tt rest s)).
Proof.
  split; [|by apply game_loop_exit].
  revert inp n. induction games as [|games IH]; intros inp n.
  { cbn [game_loop length]. split_and!; [lia| |lia..].
    by intros ?? ?%elem_of_nil. }
  cbn [game_loop].
  assert (∀ depth msgs, (depth, msgs) ∈ @nil (Z * list message) → False) as Hnil
    by (by intros ?? ?%elem_of_nil).
  destruct (read_menu move_first_choice inp) as [[human inp1]|] eqn:E1;
    [|cbn [length]; split_and!; [lia|by intros ?? ?%Hnil|lia]].
  destruct (read_menu difficulty_choice inp1) as [[depth inp2]|] eqn:E2;
    [|cbn [length]; split_and!; [lia|by intros ?? ?%Hnil|lia]].
  apply read_menu_suffix in E1 as [_ Hl1].
  pose proof (read_menu_suffix _ _ _ _ E2) as [_ Hl2].
  apply read_menu_accepts in E2 as (sk2 & c2 & _ & Hdepth & _).
  apply difficulty_choice_range in Hdepth.
  pose proof (newgame_one_verdict r f human depth inp2 n) as Hone.
  pose proof (newgame_safe r f human depth inp2 n) as Hsafe.
  pose proof (newgame_suffix (9 + r) (10 + f) human depth inp2 n) as Hl3.
  destruct (newgame (9 + r) (10 + f) human depth inp2 n)
    as [msgs inp3 s'| | |];
    [|done|done|cbn [length]; split_and!; [lia|by intros ?? ?%Hnil|lia]].
  apply suffix_length in Hl3.
  assert (∀ d ms, (d, ms) = (depth, msgs) →
            (d = 9 ∨ d = 3 ∨ d = 1) ∧
            ((∃ side who, ms = [MsgWins side; MsgWonBy who]) ∨ ms = [MsgDraw]) ∧
            (d = 9 → MsgWonBy "You" ∉ ms)) as Hgame.
  { intros d ms [= -> ->]. split_and!; [done..|].
    intros ->. apply Hsafe. right. lia. }
  destruct (read_menu newgame_choice inp3) as [[again inp4]|] eqn:E3.
  - apply read_menu_suffix in E3 as [_ Hl4]. destruct again.
    + specialize (IH inp4 (nodecount s')).
      destruct (game_loop games (9 + r) (10 + f) inp4 (nodecount s'))
        as [log ending].
      destruct IH as (Hn & Hall & Hend). cbn [length]. split_and!; [lia| |].
      * intros d ms [Heq|Hd]%elem_of_cons; [by apply Hgame|by apply Hall].
      * destruct ending; [lia|done|lia|lia].
    + cbn [length]. split_and!; [lia| |lia..].
      intros d ms Heq%list_elem_of_singleton. by apply Hgame.
  - cbn [length]. split_and!; [lia| |lia].
    intros d ms Heq%list_elem_of_singleton. by apply Hgame.
Qed.

Lemma game_loop_session_witness :
  let keys := ["y"; "e"]%char in
  let log := [(1, [MsgWins "White (X)"; MsgWonBy "You"])] in
  ∃ rest s,
    game_loop 3 (9 + 0) (10 + 0) (keys ++ session_exit) 0 = (log, Played tt rest s) ∧
    (length rest + 3 * length log ≤ length (keys ++ session_exit))%nat.
Proof.
  intros keys log.
  pose proof (game_loop_session 3 0 0 (keys ++ session_exit) 0) as [H _].
  assert (∃ rest s, game_loop 3 (9 + 0) (10 + 0) (keys ++ session_exit) 0
                    = (log, Played tt rest s))
    as (rest & s & E) by (eexists _, _; vm_compute; reflexivity).
  rewrite E in H. destruct H as (_ & _ & _ & Hread).
  exists rest, s. split; [exact E|exact Hread].
Defined.
